(** * nonkycbot: AMM pricing, step rounding and the triangular-cycle evaluation

    A shallow embedding of
      - [src/utils/amm_pricing.py]        (constant-product swap quoting),
      - [src/nonkyc_client/pricing.py]    (notional and step helpers),
      - [run_cosa_arb.py]                 (one polling cycle of the bot),
    over a model of Python's [decimal.Decimal] in its default context:
    28 significant digits, [ROUND_HALF_EVEN], traps on [DivisionByZero]
    and [InvalidOperation].

    A finite [Decimal] is a signed coefficient and a power of ten.  Every
    arithmetic operation computes the exact result and then rounds it to
    the context precision, as the library does.  The sign of a zero and the
    exponent range of the context (Emax = 999999, Emin = -999999) are not
    modelled: results are faithful as long as their adjusted exponent stays
    inside that range, and NaN and infinities never enter since the traps
    above are enabled. *)

From Stdlib Require Import ZArith QArith Qabs Qpower Lia Lqa Bool Ascii String List.
Import ListNotations.

Local Open Scope Z_scope.

(* ------------------------------------------------------------------ *)
(** ** Results of fallible code *)

Inductive exn : Type :=
| ValueError (msg : string)
| KeyError (key : string)
| EOFError
| DivisionByZero
| InvalidOperation.

Inductive result (A : Type) : Type :=
| Ok (a : A)
| Raise (e : exn).

Arguments Ok {A} a.
Arguments Raise {A} e.

Definition bind {A B : Type} (r : result A) (k : A -> result B) : result B :=
  match r with
  | Ok a => k a
  | Raise e => Raise e
  end.

Notation "x <- r ;; k" := (bind r (fun x => k))
  (at level 61, r at next level, right associativity).

(* ------------------------------------------------------------------ *)
(** ** decimal.Decimal in the default context *)

Module Dec.

Record Decimal : Type := mkDec { coeff : Z; expo : Z }.

(** [getcontext().prec] *)
Definition prec : Z := 28.

(** The number denoted: [coeff * 10 ^ expo]. *)
Definition value (d : Decimal) : Q :=
  (inject_Z (coeff d) * inject_Z 10 ^ expo d)%Q.

Definition of_Z (n : Z) : Decimal := mkDec n 0.

(** [len(str(abs(c)))]: the number of decimal digits, 1 for zero. *)
Fixpoint ndigits_fuel (fuel : nat) (n : Z) : Z :=
  match fuel with
  | O => 1
  | S f => if n <? 10 then 1 else 1 + ndigits_fuel f (n / 10)
  end.

Definition ndigits (c : Z) : Z :=
  ndigits_fuel (Z.to_nat (Z.log2 (Z.abs c))) (Z.abs c).

(** Dropping the last [k] digits of a magnitude [m], ROUND_HALF_EVEN. *)
Definition round_half_even (m k : Z) : Z :=
  let p := 10 ^ k in
  let q := m / p in
  let r := m mod p in
  if 2 * r <? p then q
  else if p <? 2 * r then q + 1
  else if Z.even q then q else q + 1.

(** Dropping the last [k] digits of a magnitude [m], ROUND_UP (away from
    zero: up whenever a non-zero digit is dropped). *)
Definition round_up (m k : Z) : Z :=
  let p := 10 ^ k in
  if m mod p =? 0 then m / p else m / p + 1.

(** [Decimal._fix]: round to at most [prec] digits. *)
Definition fix_ (d : Decimal) : Decimal :=
  let n := ndigits (coeff d) in
  if n <=? prec then d
  else
    let k := n - prec in
    let m := round_half_even (Z.abs (coeff d)) k in
    if prec <? ndigits m
    then mkDec (Z.sgn (coeff d) * (m / 10)) (expo d + k + 1)
    else mkDec (Z.sgn (coeff d) * m) (expo d + k).

(** Numeric comparison ([Decimal._cmp]): align the exponents. *)
Definition compare (x y : Decimal) : comparison :=
  let m := Z.min (expo x) (expo y) in
  Z.compare (coeff x * 10 ^ (expo x - m)) (coeff y * 10 ^ (expo y - m)).

Definition leb (x y : Decimal) : bool :=
  match compare x y with Gt => false | _ => true end.
Definition ltb (x y : Decimal) : bool :=
  match compare x y with Lt => true | _ => false end.
Definition eqb (x y : Decimal) : bool :=
  match compare x y with Eq => true | _ => false end.
Definition geb (x y : Decimal) : bool := leb y x.
Definition gtb (x y : Decimal) : bool := ltb y x.

Definition neg (x : Decimal) : Decimal := mkDec (- coeff x) (expo x).

(** [x + y]: the exact sum at the smaller exponent, then [_fix]. *)
Definition add (x y : Decimal) : Decimal :=
  let m := Z.min (expo x) (expo y) in
  fix_ (mkDec (coeff x * 10 ^ (expo x - m) + coeff y * 10 ^ (expo y - m)) m).

(** [x - y] is [x.__add__(y.copy_negate())]. *)
Definition sub (x y : Decimal) : Decimal := add x (neg y).

(** [x * y]: multiply coefficients, add exponents, then [_fix]. *)
Definition mul (x y : Decimal) : Decimal :=
  fix_ (mkDec (coeff x * coeff y) (expo x + expo y)).

(** [abs(x)] goes through [__neg__]/[__pos__], which round. *)
Definition abs (x : Decimal) : Decimal :=
  fix_ (mkDec (Z.abs (coeff x)) (expo x)).

(** The loop of [__truediv__] that brings an exact quotient as close to
    the ideal exponent as its trailing zeros allow. *)
Fixpoint strip_zeros (fuel : nat) (c e ideal : Z) : Z * Z :=
  match fuel with
  | O => (c, e)
  | S f =>
      if (e <? ideal) && (c mod 10 =? 0)
      then strip_zeros f (c / 10) (e + 1) ideal
      else (c, e)
  end.

(** [x / y] ([Decimal.__truediv__]): [prec + 1] or [prec + 2] digits of
    quotient, a sticky last digit when the division is inexact, then
    [_fix]. *)
Definition div (x y : Decimal) : result Decimal :=
  if coeff y =? 0 then
    if coeff x =? 0 then Raise InvalidOperation else Raise DivisionByZero
  else if coeff x =? 0 then Ok (fix_ (mkDec 0 (expo x - expo y)))
  else
    let shift := ndigits (coeff y) - ndigits (coeff x) + prec + 1 in
    let e := expo x - expo y - shift in
    let a := if 0 <=? shift then Z.abs (coeff x) * 10 ^ shift
             else Z.abs (coeff x) in
    let b := if 0 <=? shift then Z.abs (coeff y)
             else Z.abs (coeff y) * 10 ^ (- shift) in
    let q := a / b in
    let r := a mod b in
    let s := Z.sgn (coeff x) * Z.sgn (coeff y) in
    if r =? 0 then
      let '(c, e') := strip_zeros (Z.to_nat (expo x - expo y - e)) q e
                                  (expo x - expo y) in
      Ok (fix_ (mkDec (s * c) e'))
    else
      let c := if q mod 5 =? 0 then q + 1 else q in
      Ok (fix_ (mkDec (s * c) e)).

(** [x.to_integral_value(rounding=ROUND_UP)]: no context rounding. *)
Definition to_integral_value_round_up (x : Decimal) : Decimal :=
  if 0 <=? expo x then x
  else mkDec (Z.sgn (coeff x) * round_up (Z.abs (coeff x)) (- expo x)) 0.

(** The unit roundoff of the context, [10 ^ (1 - prec) / 2]. *)
Definition u : Q := 1 # 2000000000000000000000000000.

(** A rational that some [Decimal] of at most [prec] digits denotes. *)
Definition representable (q : Q) : Prop :=
  exists c e, Z.abs c < 10 ^ prec /\ (q == value (mkDec c e))%Q.

(** [z] is an admissible rounding of the exact result [q]: within the unit
    roundoff, of at most [prec] digits, and exact when [q] fits. *)
Definition Rnd (q : Q) (z : Decimal) : Prop :=
  (Qabs (value z - q) <= u * Qabs q)%Q /\
  Z.abs (coeff z) < 10 ^ prec /\
  (representable q -> (value z == q)%Q).

End Dec.

Import Dec.

Declare Scope dec_scope.
Delimit Scope dec_scope with dec.
Notation "x <=? y" := (Dec.leb x y) : dec_scope.
Notation "x <? y" := (Dec.ltb x y) : dec_scope.
Notation "x >=? y" := (Dec.geb x y) : dec_scope.
Notation "x >? y" := (Dec.gtb x y) : dec_scope.
Notation "x + y" := (Dec.add x y) : dec_scope.
Notation "x - y" := (Dec.sub x y) : dec_scope.
Notation "x * y" := (Dec.mul x y) : dec_scope.
Notation "x / y" := (Dec.div x y) : dec_scope.

(** Literals of the source. *)
Definition d0 : Decimal := mkDec 0 0.          (* Decimal("0") *)
Definition d1 : Decimal := mkDec 1 0.          (* Decimal("1") *)
Definition d100 : Decimal := mkDec 100 0.      (* Decimal("100"), and 100 *)
Definition int0 : Decimal := mkDec 0 0.        (* the int 0 in a comparison *)

(* ------------------------------------------------------------------ *)
(** ** src/utils/amm_pricing.py *)

Module AmmPricing.

Record PoolReserves : Type := mkPoolReserves {
  reserve_token_a : Decimal;
  reserve_token_b : Decimal;
  token_a_symbol : string;
  token_b_symbol : string
}.

Record SwapQuote : Type := mkSwapQuote {
  amount_in : Decimal;
  amount_out : Decimal;
  effective_price : Decimal;
  price_impact : Decimal;
  fee_amount : Decimal
}.

Definition InvalidReserves : exn := ValueError "Pool reserves must be positive".
Definition ExceedsReserve : exn := ValueError "Cannot swap more than pool reserve".
Definition UnknownToken (token_in a b : string) : exn :=
  ValueError ("Token " ++ token_in ++ " not found in pool (" ++ a ++ "/" ++ b ++ ")").

Definition calculate_constant_product_output
    (amount_in reserve_in reserve_out fee_rate : Decimal) : result Decimal :=
  if (amount_in <=? int0)%dec then Ok d0
  else if (reserve_in <=? int0)%dec || (reserve_out <=? int0)%dec
  then Raise InvalidReserves
  else
    let amount_in_with_fee := (amount_in * (d1 - fee_rate))%dec in
    let numerator := (amount_in_with_fee * reserve_out)%dec in
    let denominator := (reserve_in + amount_in_with_fee)%dec in
    (numerator / denominator)%dec.

Definition calculate_constant_product_input
    (amount_out reserve_in reserve_out fee_rate : Decimal) : result Decimal :=
  if (amount_out <=? int0)%dec then Ok d0
  else if (amount_out >=? reserve_out)%dec then Raise ExceedsReserve
  else if (reserve_in <=? int0)%dec || (reserve_out <=? int0)%dec
  then Raise InvalidReserves
  else
    let numerator := (reserve_in * amount_out)%dec in
    let denominator := ((reserve_out - amount_out) * (d1 - fee_rate))%dec in
    (numerator / denominator)%dec.

Definition get_swap_quote (amount_in : Decimal) (reserves : PoolReserves)
    (token_in : string) (fee_rate : Decimal) : result SwapQuote :=
  rs <- (if String.eqb token_in (token_a_symbol reserves)
         then Ok (reserve_token_a reserves, reserve_token_b reserves)
         else if String.eqb token_in (token_b_symbol reserves)
         then Ok (reserve_token_b reserves, reserve_token_a reserves)
         else Raise (UnknownToken token_in (token_a_symbol reserves)
                                  (token_b_symbol reserves))) ;;
  let reserve_in := fst rs in
  let reserve_out := snd rs in
  amount_out <- calculate_constant_product_output
                  amount_in reserve_in reserve_out fee_rate ;;
  effective_price <- (if (amount_in >? int0)%dec
                      then (amount_out / amount_in)%dec else Ok d0) ;;
  spot_price <- (reserve_out / reserve_in)%dec ;;
  price_impact <- (if (spot_price >? int0)%dec
                   then q <- (Dec.abs (effective_price - spot_price)
                              / spot_price)%dec ;;
                        Ok (q * d100)%dec
                   else Ok d0) ;;
  let fee_amount := (amount_in * fee_rate)%dec in
  Ok (mkSwapQuote amount_in amount_out effective_price price_impact fee_amount).

(** The formulas of the docstrings over exact rationals, with
    [g = 1 - fee_rate]. *)
Definition output_exact (x rin rout g : Q) : Q :=
  (x * g * rout / (rin + x * g))%Q.
Definition input_exact (y rin rout g : Q) : Q :=
  (rin * y / ((rout - y) * g))%Q.

(** The contract of [swap_output] as the specification words it:
    [amount_in_net = amount_in * (1 - fee_rate)],
    [amount_out = amount_in_net * reserve_out / (reserve_in + amount_in_net)],
    in context arithmetic. *)
Definition swap_output_contract
    (amount_in reserve_in reserve_out fee_rate : Decimal) : result Decimal :=
  ((amount_in * (d1 - fee_rate) * reserve_out)
   / (reserve_in + amount_in * (d1 - fee_rate)))%dec.

End AmmPricing.

(* ------------------------------------------------------------------ *)
(** ** src/nonkyc_client/pricing.py *)

Module Pricing.

(** [Decimal(str(d))] gives [d] back for a finite [Decimal], so the two
    conversions at the head of the function are identities here. *)
Definition round_up_to_step (quantity step : Decimal) : result Decimal :=
  if (step <=? int0)%dec then Ok quantity
  else
    q <- (quantity / step)%dec ;;
    let multiplier := to_integral_value_round_up q in
    Ok (multiplier * step)%dec.

End Pricing.

(* ------------------------------------------------------------------ *)
(** ** run_cosa_arb.py: one iteration of the loop of [run_arbitrage_bot] *)

Module CosaArb.

(** The configuration dictionary; the numeric entries are held as the
    [Decimal(str(config[...]))] the code reads them as. *)
Record Config : Type := mkConfig {
  pair_ab : string;
  pair_bc : string;
  pair_ac : string;
  trade_amount_a : Decimal;
  min_profitability : Decimal;
  fee_rate : Decimal;
  order_type : string
}.

(** The [prices] dictionary, pair name to price. *)
Definition Prices : Type := list (string * Decimal).

Fixpoint dict_get (prices : Prices) (key : string) : result Decimal :=
  match prices with
  | [] => Raise (KeyError key)
  | (k, v) :: rest => if String.eqb k key then Ok v else dict_get rest key
  end.

Fixpoint dict_set (prices : Prices) (key : string) (v : Decimal) : Prices :=
  match prices with
  | [] => [(key, v)]
  | (k, w) :: rest =>
      if String.eqb k key then (k, v) :: rest
      else (k, w) :: dict_set rest key v
  end.

Record Rates : Type := mkRates {
  step1 : Decimal;
  step2 : Decimal;
  step3 : Decimal
}.

Definition calculate_conversion_rates (config : Config) (prices : Prices)
    : result Rates :=
  pirate_btc_rate <- dict_get prices (pair_ab config) ;;
  cosa_btc_price <- dict_get prices (pair_bc config) ;;
  btc_cosa_rate <- (d1 / cosa_btc_price)%dec ;;
  cosa_pirate_rate <- dict_get prices (pair_ac config) ;;
  Ok (mkRates pirate_btc_rate btc_cosa_rate cosa_pirate_rate).

(** Lines 192-219: the simulated cycle and the profitability test. *)
Record Evaluation : Type := mkEvaluation {
  final_amount : Decimal;
  profit : Decimal;
  profit_ratio : Decimal;
  profit_pct : Decimal;
  profitable : bool
}.

Definition simulate_cycle (config : Config) (rates : Rates)
    : result Evaluation :=
  let start_amount := trade_amount_a config in
  let fee_rate := fee_rate config in
  let amount := start_amount in
  let amount := (amount * step1 rates)%dec in
  let amount := (amount * (d1 - fee_rate))%dec in
  let amount := (amount * step2 rates)%dec in
  let amount := (amount * (d1 - fee_rate))%dec in
  let amount := (amount * step3 rates)%dec in
  let amount := (amount * (d1 - fee_rate))%dec in
  let profit := (amount - start_amount)%dec in
  profit_ratio <- (profit / start_amount)%dec ;;
  let profit_pct := (profit_ratio * d100)%dec in
  let min_profit := min_profitability config in
  Ok (mkEvaluation amount profit profit_ratio profit_pct
                   (profit_ratio >=? min_profit)%dec).

Record OrderRequest : Type := mkOrderRequest {
  symbol : string;
  side : string;
  order_kind : string;
  quantity : Decimal
}.

(** [execute_arbitrage]: three orders in sequence, each quantity estimated
    from the previous leg; any exception is caught and reported as
    [False].  The orders handed to the client are returned too. *)
Definition execute_arbitrage (place_order : OrderRequest -> result unit)
    (config : Config) (prices : Prices) : bool * list OrderRequest :=
  let start_amount := trade_amount_a config in
  let order1 := mkOrderRequest (pair_ab config) "sell" (order_type config)
                               start_amount in
  match place_order order1 with
  | Raise _ => (false, [order1])
  | Ok _ =>
    match
      (p_ab <- dict_get prices (pair_ab config) ;;
       let btc_amount := (start_amount * p_ab)%dec in
       let btc_amount := (btc_amount * (d1 - fee_rate config))%dec in
       p_bc <- dict_get prices (pair_bc config) ;;
       (btc_amount / p_bc)%dec)
    with
    | Raise _ => (false, [order1])
    | Ok cosa_amount =>
      let order2 := mkOrderRequest (pair_bc config) "buy" (order_type config)
                                   cosa_amount in
      match place_order order2 with
      | Raise _ => (false, [order1; order2])
      | Ok _ =>
        let cosa_amount := (cosa_amount * (d1 - fee_rate config))%dec in
        let order3 := mkOrderRequest (pair_ac config) "sell"
                                     (order_type config) cosa_amount in
        match place_order order3 with
        | Raise _ => (false, [order1; order2; order3])
        | Ok _ =>
          match
            (p_ac <- dict_get prices (pair_ac config) ;;
             let final_pirate := (cosa_amount * p_ac)%dec in
             let final_pirate :=
               (final_pirate * (d1 - fee_rate config))%dec in
             let profit := (final_pirate - start_amount)%dec in
             q <- (profit / start_amount)%dec ;;
             Ok (q * d100)%dec)
          with
          | Raise _ => (false, [order1; order2; order3])
          | Ok _ => (true, [order1; order2; order3])
          end
        end
      end
    end
  end.

(** [str.lower] on ASCII letters. *)
Definition lower_ascii (c : ascii) : ascii :=
  let n := nat_of_ascii c in
  if (65 <=? n)%nat && (n <=? 90)%nat then ascii_of_nat (n + 32) else c.

Fixpoint lower (s : string) : string :=
  match s with
  | EmptyString => EmptyString
  | String c rest => String (lower_ascii c) (lower rest)
  end.

(** What one iteration of the loop did. *)
Inductive Outcome : Type :=
| Abandoned                       (* fewer than three prices: [continue] *)
| NoOpportunity (ev : Evaluation) (* below the threshold *)
| SkippedByUser (ev : Evaluation) (* prompted, answer not yes *)
| Executed (ev : Evaluation) (ok : bool) (orders : list OrderRequest).

(** The body of [while True] from the price fetch on.  [get_price] is the
    feed ([None] when the fetch failed); [stdin] holds the lines the
    operator will type, and [input()] takes the first one, raising
    [EOFError] when there is none.  The remaining lines are returned, so a
    cycle that prompted is one that shortened [stdin]. *)
Definition run_cycle (get_price : string -> option Decimal)
    (place_order : OrderRequest -> result unit)
    (config : Config) (stdin : list string)
    : result (Outcome * list string) :=
  let prices :=
    fold_left (fun (prices : Prices) (pair : string) =>
                 match get_price pair with
                 | None => prices
                 | Some price => dict_set prices pair price
                 end)
              [pair_ab config; pair_bc config; pair_ac config] [] in
  if negb (Nat.eqb (List.length prices) 3) then Ok (Abandoned, stdin)
  else
    rates <- calculate_conversion_rates config prices ;;
    ev <- simulate_cycle config rates ;;
    if profitable ev then
      match stdin with
      | [] => Raise EOFError
      | response :: stdin' =>
          let r := lower response in
          if String.eqb r "yes" || String.eqb r "y"
          then let '(ok, orders) := execute_arbitrage place_order config prices in
               Ok (Executed ev ok orders, stdin')
          else Ok (SkippedByUser ev, stdin')
      end
    else Ok (NoOpportunity ev, stdin).

(** The chain of the specification: three hops, the fee after each. *)
Definition cycle_final_amount (trade_amount_a rate1 rate2 rate3 fee_rate : Decimal)
    : Decimal :=
  (trade_amount_a * rate1 * (d1 - fee_rate) * rate2 * (d1 - fee_rate)
   * rate3 * (d1 - fee_rate))%dec.

(** The scenario of the specification and of tests/test_cosa_runner.py:
    ETH/USDT = 100, ETH/BTC = 0.1, BTC/USDT = 1200, [trade_amount_a] = 100,
    [fee_rate] = 0, [min_profitability] = 0.05; every order is accepted. *)
Definition scenario_config : Config :=
  mkConfig "ETH/USDT" "ETH/BTC" "BTC/USDT"
           (mkDec 100 0) (mkDec 5 (-2)) (mkDec 0 0) "limit".

Definition scenario_feed (pair : string) : option Decimal :=
  if String.eqb pair "ETH/USDT" then Some (mkDec 100 0)
  else if String.eqb pair "ETH/BTC" then Some (mkDec 1 (-1))
  else if String.eqb pair "BTC/USDT" then Some (mkDec 1200 0)
  else None.

Definition accept_order (_ : OrderRequest) : result unit := Ok tt.

(** Its rates, [1 / 0.1] being [1E+1], and what the simulation gives. *)
Definition scenario_rates : Rates :=
  mkRates (mkDec 100 0) (mkDec 1 1) (mkDec 1200 0).

Definition scenario_evaluation : Evaluation :=
  mkEvaluation (mkDec 12000000 1) (mkDec 119999900 0) (mkDec 1199999 0)
               (mkDec 119999900 0) true.

End CosaArb.

(* ------------------------------------------------------------------ *)
(** ** The rest of src/utils/amm_pricing.py *)

Module AmmPool.

Import AmmPricing.

Definition calculate_minimum_received
    (amount_out slippage_tolerance : Decimal) : Decimal :=
  (amount_out * (d1 - slippage_tolerance))%dec.

(** The returned dictionary, built as the literal builds it: the second
    key replaces the first when the two f-strings coincide.  [fee_rate] is
    accepted and not used. *)
Definition estimate_optimal_trade_size (reserves : PoolReserves)
    (max_price_impact fee_rate : Decimal) : list (string * Decimal) :=
  let optimal_a_to_b := (reserve_token_a reserves * max_price_impact)%dec in
  let optimal_b_to_a := (reserve_token_b reserves * max_price_impact)%dec in
  CosaArb.dict_set
    (CosaArb.dict_set []
       (token_a_symbol reserves ++ "_to_" ++ token_b_symbol reserves)
       optimal_a_to_b)
    (token_b_symbol reserves ++ "_to_" ++ token_a_symbol reserves)
    optimal_b_to_a.

Definition calculate_pool_spot_price (reserves : PoolReserves)
    (quote_token : string) : result Decimal :=
  if String.eqb quote_token (token_a_symbol reserves)
  then (reserve_token_b reserves / reserve_token_a reserves)%dec
  else if String.eqb quote_token (token_b_symbol reserves)
  then (reserve_token_a reserves / reserve_token_b reserves)%dec
  else Raise (UnknownToken quote_token (token_a_symbol reserves)
                           (token_b_symbol reserves)).

End AmmPool.

(* ------------------------------------------------------------------ *)
(** ** The rest of src/nonkyc_client/pricing.py, and src/utils/notional.py *)

Module Notional.

(** As in [round_up_to_step], the [Decimal(str(...))] conversions are
    identities on a [Decimal]. *)
Definition min_quantity_for_notional
    (price min_notional fee_rate : Decimal) : result Decimal :=
  if (price <=? int0)%dec then Ok d0
  else
    let denominator := (price * (d1 - fee_rate))%dec in
    if (denominator <=? int0)%dec then Ok d0
    else (min_notional / denominator)%dec.

Definition effective_notional (quantity price fee_rate : Decimal) : Decimal :=
  (quantity * price * (d1 - fee_rate))%dec.

(** What [should_skip_notional] prints when it skips, field by field. *)
Record SkipNotice : Type := mkSkipNotice {
  notice_symbol : string;
  notice_side : string;
  notice_order_type : string;
  notice_price : Decimal;
  notice_quantity : Decimal;
  notice_notional : Decimal
}.

(** [config.get("min_notional_usd", "1.0")] is [None] when the key is
    absent; the function returns its verdict and what it printed. *)
Definition should_skip_notional (min_notional_usd : option Decimal)
    (symbol side : string) (quantity price : Decimal) (order_type : string)
    : bool * option SkipNotice :=
  let min_notional := match min_notional_usd with
                      | Some m => m
                      | None => mkDec 10 (-1)
                      end in
  let notional := (quantity * price)%dec in
  if (notional <? min_notional)%dec
  then (true, Some (mkSkipNotice symbol side order_type price quantity notional))
  else (false, None).

End Notional.

(* ------------------------------------------------------------------ *)
(** ** nonkyc_bot/src/engine/order_manager.py *)

Module OrderManager.

Section WithFloat.

(** [price] and [amount] are floats the manager stores and never computes
    with. *)
Variable float : Type.

Record Order : Type := mkOrder {
  order_id : string;
  trading_pair : string;
  side : string;
  price : float;
  amount : float
}.

(** The manager's state is its [open_orders] list. *)
Definition State : Type := list Order.

Fixpoint get_open_order (open_orders : State) (id : string) : option Order :=
  match open_orders with
  | [] => None
  | order :: rest =>
      if String.eqb (order_id order) id then Some order
      else get_open_order rest id
  end.

Definition AlreadyTracked (id : string) : exn :=
  ValueError ("Order " ++ id ++ " is already tracked.").

(** [submit] returns the order and the new state, or raises and leaves the
    state as it was. *)
Definition submit (open_orders : State) (order : Order)
    : result (Order * State) :=
  match get_open_order open_orders (order_id order) with
  | Some _ => Raise (AlreadyTracked (order_id order))
  | None => Ok (order, open_orders ++ [order])
  end.

Definition track (open_orders : State) (order : Order) : result State :=
  r <- submit open_orders order ;; Ok (snd r).

Fixpoint replace (open_orders : State) (id : string) (new_order : Order)
    : bool * State :=
  match open_orders with
  | [] => (false, [])
  | order :: rest =>
      if String.eqb (order_id order) id then (true, new_order :: rest)
      else let '(found, rest') := replace rest id new_order in
           (found, order :: rest')
  end.

(** [cancel] removes the first order with the id: [list.remove] finds that
    very order first, every earlier equal order having the same id. *)
Fixpoint cancel (open_orders : State) (id : string) : bool * State :=
  match open_orders with
  | [] => (false, [])
  | order :: rest =>
      if String.eqb (order_id order) id then (true, rest)
      else let '(found, rest') := cancel rest id in
           (found, order :: rest')
  end.

Definition list_open_orders (open_orders : State) : list Order := open_orders.

End WithFloat.

Arguments mkOrder {float}.
Arguments order_id {float}.
Arguments get_open_order {float}.
Arguments submit {float}.
Arguments track {float}.
Arguments replace {float}.
Arguments cancel {float}.
Arguments list_open_orders {float}.
Arguments AlreadyTracked id : clear implicits.

End OrderManager.

(* ------------------------------------------------------------------ *)
(** ** Measuring the distance to the exact formulas *)

Module Approx.

(** [1 / (1 - u)]: one rounding moves a positive number by at most this
    factor, either way. *)
Definition rho : Q := 2000000000000000000000000000 # 1999999999999999999999999999.

(** [b] is [a] up to the factor [r]. *)
Definition near (r a b : Q) : Prop :=
  (0 < a /\ a <= r * b /\ b <= r * a)%Q.

(** The relative tolerance the accuracy statements use, [1e-26]. *)
Definition eps : Q := 1 # 100000000000000000000000000.

End Approx.

(* ================================================================== *)
(** * Facts about the decimal model *)

Module DecFacts.

Local Open Scope Z_scope.

(** ** Powers of ten and digit counts *)

Lemma pow10_pos (k : Z) : 0 <= k -> 0 < 10 ^ k.
Proof. intros; apply Z.pow_pos_nonneg; lia. Qed.

Lemma pow10_add (a b : Z) : 0 <= a -> 0 <= b -> 10 ^ (a + b) = 10 ^ a * 10 ^ b.
Proof. intros; apply Z.pow_add_r; lia. Qed.

Lemma pow10_succ (a : Z) : 0 <= a -> 10 ^ (a + 1) = 10 * 10 ^ a.
Proof. intros; rewrite pow10_add by lia; change (10 ^ 1) with 10; lia. Qed.

Lemma pow10_le (a b : Z) : 0 <= a <= b -> 10 ^ a <= 10 ^ b.
Proof. intros; apply Z.pow_le_mono_r; lia. Qed.

Lemma pow10_lt (a b : Z) : 0 <= a < b -> 10 ^ a < 10 ^ b.
Proof. intros; apply Z.pow_lt_mono_r; lia. Qed.

Lemma pow10_lt_inv (a b : Z) : 0 <= a -> 0 <= b -> 10 ^ a < 10 ^ b -> a < b.
Proof.
  intros Ha Hb H. destruct (Z_lt_le_dec a b) as [|Hle]; [assumption|].
  assert (10 ^ b <= 10 ^ a) by (apply pow10_le; lia). lia.
Qed.

Lemma ndigits_fuel_spec (fuel : nat) :
  forall n, 0 <= n -> n < 2 ^ (Z.of_nat fuel + 1) ->
  1 <= ndigits_fuel fuel n /\ n < 10 ^ ndigits_fuel fuel n /\
  (0 < n -> 10 ^ (ndigits_fuel fuel n - 1) <= n).
Proof.
  induction fuel as [|f IH]; intros n Hn Hlt.
  - simpl in *. change (2 ^ 1) with 2 in Hlt. repeat split; try lia.
  - cbn [ndigits_fuel]. destruct (Z.ltb_spec n 10) as [Hs|Hb].
    + change (10 ^ 1) with 10. change (10 ^ (1 - 1)) with 1. lia.
    + assert (Hq : 0 <= n / 10) by (apply Z.div_pos; lia).
      assert (Hq2 : n / 10 < 2 ^ (Z.of_nat f + 1)).
      { replace (Z.of_nat (S f) + 1) with (Z.succ (Z.of_nat f + 1)) in Hlt by lia.
        rewrite Z.pow_succ_r in Hlt by lia.
        apply Z.div_lt_upper_bound; lia. }
      destruct (IH (n / 10) Hq Hq2) as (H1 & H2 & H3).
      set (d := ndigits_fuel f (n / 10)) in *.
      assert (Hdm : n = 10 * (n / 10) + n mod 10) by (apply Z.div_mod; lia).
      assert (Hr : 0 <= n mod 10 < 10) by (apply Z.mod_pos_bound; lia).
      assert (Hq0 : 0 < n / 10) by lia.
      specialize (H3 Hq0).
      replace (1 + d) with (d + 1) by lia.
      replace (d + 1 - 1) with ((d - 1) + 1) by lia.
      rewrite !pow10_succ by lia.
      repeat split; lia.
Qed.

Lemma ndigits_spec (c : Z) :
  1 <= ndigits c /\ Z.abs c < 10 ^ ndigits c /\
  (c <> 0 -> 10 ^ (ndigits c - 1) <= Z.abs c).
Proof.
  unfold ndigits.
  assert (Hn : 0 <= Z.abs c) by lia.
  assert (Hlt : Z.abs c < 2 ^ (Z.of_nat (Z.to_nat (Z.log2 (Z.abs c))) + 1)).
  { rewrite Z2Nat.id by apply Z.log2_nonneg.
    destruct (Z.eq_dec (Z.abs c) 0) as [E|E].
    - rewrite E. reflexivity.
    - pose proof (Z.log2_spec (Z.abs c)). lia. }
  destruct (ndigits_fuel_spec _ _ Hn Hlt) as (H1 & H2 & H3).
  repeat split; try assumption. intros; apply H3; lia.
Qed.

Lemma ndigits_unique (c d : Z) :
  1 <= d -> 10 ^ (d - 1) <= Z.abs c < 10 ^ d -> ndigits c = d.
Proof.
  intros Hd [Hlo Hhi].
  destruct (ndigits_spec c) as (H1 & H2 & H3).
  assert (Hc : c <> 0).
  { intros ->. simpl in Hlo. pose proof (pow10_pos (d - 1)). lia. }
  specialize (H3 Hc).
  assert (ndigits c - 1 < d) by (apply pow10_lt_inv; lia).
  assert (d - 1 < ndigits c) by (apply pow10_lt_inv; lia).
  lia.
Qed.

Lemma ndigits_le_prec (c : Z) : Z.abs c < 10 ^ prec -> ndigits c <= prec.
Proof.
  intros H. destruct (ndigits_spec c) as (H1 & H2 & H3).
  destruct (Z.eq_dec c 0) as [->|Hc]; [vm_compute; discriminate|].
  specialize (H3 Hc).
  assert (ndigits c - 1 < prec) by (apply pow10_lt_inv; unfold prec in *; lia).
  lia.
Qed.

(** ** ROUND_HALF_EVEN on a magnitude *)

Lemma round_half_even_spec (m k : Z) :
  0 <= m -> 0 <= k ->
  0 <= round_half_even m k /\
  2 * Z.abs (round_half_even m k * 10 ^ k - m) <= 10 ^ k /\
  (m mod 10 ^ k = 0 -> round_half_even m k * 10 ^ k = m).
Proof.
  intros Hm Hk. unfold round_half_even.
  pose proof (pow10_pos k Hk) as Hp.
  set (p := 10 ^ k) in *.
  assert (Hdm : m = p * (m / p) + m mod p) by (apply Z.div_mod; lia).
  assert (Hr : 0 <= m mod p < p) by (apply Z.mod_pos_bound; lia).
  assert (Hq : 0 <= m / p) by (apply Z.div_pos; lia).
  set (q := m / p) in *. set (r := m mod p) in *.
  destruct (Z.ltb_spec (2 * r) p); [|destruct (Z.ltb_spec p (2 * r));
    [|destruct (Z.even q)]]; repeat split; try lia.
Qed.

Lemma round_up_spec (m k : Z) :
  0 <= m -> 0 <= k ->
  m <= round_up m k * 10 ^ k < m + 10 ^ k.
Proof.
  intros Hm Hk. unfold round_up.
  pose proof (pow10_pos k Hk) as Hp.
  set (p := 10 ^ k) in *.
  assert (Hdm : m = p * (m / p) + m mod p) by (apply Z.div_mod; lia).
  assert (Hr : 0 <= m mod p < p) by (apply Z.mod_pos_bound; lia).
  destruct (Z.eqb_spec (m mod p) 0); lia.
Qed.

(** ** [_fix] on coefficients *)

Lemma fix_spec (d : Decimal) :
  exists K,
    0 <= K /\ expo (fix_ d) = expo d + K /\
    Z.abs (coeff (fix_ d)) < 10 ^ prec /\
    2 * 10 ^ (prec - 1) * Z.abs (coeff (fix_ d) * 10 ^ K - coeff d)
      <= Z.abs (coeff d) /\
    (coeff d <> 0 -> coeff (fix_ d) <> 0) /\
    ((ndigits (coeff d) <= prec \/
      Z.abs (coeff d) mod 10 ^ (ndigits (coeff d) - prec) = 0) ->
     coeff (fix_ d) * 10 ^ K = coeff d).
Proof.
  unfold fix_. destruct (ndigits_spec (coeff d)) as (Hn1 & Hn2 & Hn3).
  assert (Hprec : 1 <= prec) by (unfold prec; lia).
  set (c := coeff d) in *. set (n := ndigits c) in *.
  destruct (Z.leb_spec n prec) as [Hle|Hgt].
  - exists 0. fold c. rewrite Z.mul_1_r, Z.sub_diag. simpl Z.abs.
    assert (10 ^ n <= 10 ^ prec) by (apply pow10_le; lia).
    repeat split; try lia.
  - assert (Hc : c <> 0).
    { intros E. subst n. rewrite E in Hgt. vm_compute in Hgt. discriminate. }
    specialize (Hn3 Hc).
    set (k := n - prec) in *.
    assert (Hk : 0 < k) by lia.
    destruct (round_half_even_spec (Z.abs c) k) as (Hm0 & Hm1 & Hm2); try lia.
    set (m := round_half_even (Z.abs c) k) in *.
    pose proof (pow10_pos k ltac:(lia)) as HT.
    assert (HP : 10 ^ prec = 10 * 10 ^ (prec - 1)) by reflexivity.
    assert (HP1 : 0 < 10 ^ (prec - 1)) by reflexivity.
    assert (Hlo : 10 ^ (prec - 1) * 10 ^ k <= Z.abs c).
    { rewrite <- pow10_add by lia.
      replace (prec - 1 + k) with (n - 1) by lia. exact Hn3. }
    assert (Hhi : Z.abs c < 10 ^ prec * 10 ^ k).
    { rewrite <- pow10_add by lia.
      replace (prec + k) with n by lia. exact Hn2. }
    set (T := 10 ^ k) in *. set (P1 := 10 ^ (prec - 1)) in *.
    set (P := 10 ^ prec) in *.
    assert (HmP : m <= P) by nia.
    assert (HmP1 : P1 <= m) by nia.
    assert (Hsg : Z.sgn c * Z.abs c = c) by lia.
    assert (Hs1 : Z.sgn c = 1 \/ Z.sgn c = -1) by lia.
    destruct (ndigits_spec m) as (Hd1 & Hd2 & Hd3).
    destruct (Z.ltb_spec prec (ndigits m)) as [Hcarry|Hfit].
    + assert (Hm : m = P).
      { assert (10 ^ prec <= 10 ^ (ndigits m - 1)) by (apply pow10_le; lia).
        assert (m <> 0) by lia. specialize (Hd3 H0). fold P in H. lia. }
      exists (k + 1). cbn [coeff expo]. fold c.
      assert (Hdiv : m / 10 = P1).
      { rewrite Hm, HP. fold P1. rewrite Z.mul_comm. apply Z.div_mul. lia. }
      rewrite Hdiv. rewrite pow10_succ by lia. fold T.
      assert (E : Z.sgn c * P1 * (10 * T) - c = Z.sgn c * (m * T - Z.abs c)) by nia.
      assert (Eabs : Z.abs (Z.sgn c * (m * T - Z.abs c)) = Z.abs (m * T - Z.abs c)).
      { destruct Hs1 as [Hs|Hs]; rewrite Hs; lia. }
      assert (Ecoef : Z.abs (Z.sgn c * P1) = P1).
      { destruct Hs1 as [Hs|Hs]; rewrite Hs; lia. }
      split; [lia|]. split; [lia|]. split; [rewrite Ecoef; lia|].
      split; [rewrite E, Eabs; nia|]. split; [nia|].
      intros [Hx|Hx]; [lia|]. specialize (Hm2 Hx). nia.
    + exists k. cbn [coeff expo]. fold c. fold T.
      assert (Hm : m < P).
      { assert (10 ^ ndigits m <= 10 ^ prec) by (apply pow10_le; lia). fold P in H. lia. }
      assert (E : Z.sgn c * m * T - c = Z.sgn c * (m * T - Z.abs c)) by nia.
      assert (Eabs : Z.abs (Z.sgn c * (m * T - Z.abs c)) = Z.abs (m * T - Z.abs c)).
      { destruct Hs1 as [Hs|Hs]; rewrite Hs; lia. }
      assert (Ecoef : Z.abs (Z.sgn c * m) = m).
      { destruct Hs1 as [Hs|Hs]; rewrite Hs; lia. }
      split; [lia|]. split; [lia|]. split; [rewrite Ecoef; lia|].
      split; [rewrite E, Eabs; nia|]. split; [nia|].
      intros [Hx|Hx]; [lia|]. specialize (Hm2 Hx). nia.
Qed.

Lemma fix_shape (d : Decimal) :
  (ndigits (coeff d) <= prec /\ fix_ d = d) \/
  (prec < ndigits (coeff d) /\
   exists K,
     0 <= K /\ expo (fix_ d) = expo d + K /\
     Z.abs (coeff (fix_ d)) < 10 ^ prec /\
     coeff (fix_ d) * 10 ^ K =
       Z.sgn (coeff d)
       * (round_half_even (Z.abs (coeff d)) (ndigits (coeff d) - prec)
          * 10 ^ (ndigits (coeff d) - prec))).
Proof.
  unfold fix_. destruct (ndigits_spec (coeff d)) as (Hn1 & Hn2 & Hn3).
  assert (Hprec : 1 <= prec) by (unfold prec; lia).
  set (c := coeff d) in *. set (n := ndigits c) in *.
  destruct (Z.leb_spec n prec) as [Hle|Hgt]; [left; split; [assumption|reflexivity]|].
  right. split; [assumption|].
  assert (Hc : c <> 0).
  { intros E. subst n. rewrite E in Hgt. vm_compute in Hgt. discriminate. }
  specialize (Hn3 Hc).
  set (k := n - prec) in *.
  assert (Hk : 0 < k) by lia.
  destruct (round_half_even_spec (Z.abs c) k) as (Hm0 & Hm1 & _); try lia.
  set (m := round_half_even (Z.abs c) k) in *.
  pose proof (pow10_pos k ltac:(lia)) as HT.
  assert (HP : 10 ^ prec = 10 * 10 ^ (prec - 1)) by reflexivity.
  assert (HP1 : 0 < 10 ^ (prec - 1)) by reflexivity.
  assert (Hlo : 10 ^ (prec - 1) * 10 ^ k <= Z.abs c).
  { rewrite <- pow10_add by lia.
    replace (prec - 1 + k) with (n - 1) by lia. exact Hn3. }
  assert (Hhi : Z.abs c < 10 ^ prec * 10 ^ k).
  { rewrite <- pow10_add by lia.
    replace (prec + k) with n by lia. exact Hn2. }
  set (T := 10 ^ k) in *. set (P1 := 10 ^ (prec - 1)) in *.
  set (P := 10 ^ prec) in *.
  assert (HmP : m <= P) by nia.
  assert (HmP1 : P1 <= m) by nia.
  assert (Hs1 : Z.sgn c = 1 \/ Z.sgn c = -1) by lia.
  destruct (ndigits_spec m) as (Hd1 & Hd2 & Hd3).
  destruct (Z.ltb_spec prec (ndigits m)) as [Hcarry|Hfit].
  - assert (Hm : m = P).
    { assert (10 ^ prec <= 10 ^ (ndigits m - 1)) by (apply pow10_le; lia).
      assert (m <> 0) by lia. specialize (Hd3 H0). fold P in H. lia. }
    exists (k + 1). cbn [coeff expo].
    assert (Hdiv : m / 10 = P1).
    { rewrite Hm, HP. fold P1. rewrite Z.mul_comm. apply Z.div_mul. lia. }
    rewrite Hdiv. rewrite pow10_succ by lia. fold T.
    assert (Ecoef : Z.abs (Z.sgn c * P1) = P1).
    { destruct Hs1 as [Hs|Hs]; rewrite Hs; lia. }
    split; [lia|]. split; [lia|]. split; [rewrite Ecoef; lia|]. nia.
  - exists k. cbn [coeff expo]. fold T.
    assert (Hm : m < P).
    { assert (10 ^ ndigits m <= 10 ^ prec) by (apply pow10_le; lia). fold P in H. lia. }
    assert (Ecoef : Z.abs (Z.sgn c * m) = m).
    { destruct Hs1 as [Hs|Hs]; rewrite Hs; lia. }
    split; [lia|]. split; [lia|]. split; [rewrite Ecoef; lia|]. nia.
Qed.

(** A magnitude that is not a multiple of five is never halfway. *)
Lemma round_half_even_sticky (c k : Z) :
  0 <= c -> 1 <= k -> c mod 5 <> 0 ->
  2 * Z.abs (round_half_even c k * 10 ^ k - c) <= 10 ^ k - 2.
Proof.
  intros Hc Hk H5.
  destruct (round_half_even_spec c k) as (Hm0 & Hm1 & _); try lia.
  set (m := round_half_even c k) in *.
  assert (HT : 10 ^ k = 10 * 10 ^ (k - 1)).
  { replace k with ((k - 1) + 1) at 1 by lia. apply pow10_succ. lia. }
  pose proof (pow10_pos (k - 1) ltac:(lia)) as HT1.
  set (T1 := 10 ^ (k - 1)) in *. rewrite HT in Hm1. rewrite HT.
  destruct (Z.eq_dec (2 * Z.abs (m * (10 * T1) - c)) (10 * T1)) as [E|NE]; [|lia].
  exfalso. apply H5.
  assert (Hc5 : c = (2 * m * T1 + T1) * 5 \/ c = (2 * m * T1 - T1) * 5) by lia.
  destruct Hc5 as [E5|E5]; rewrite E5; apply Z.mod_mul; lia.
Qed.

(** ** Values in [Q] *)

Local Open Scope Q_scope.

Lemma p10_pos (e : Z) : 0 < inject_Z 10 ^ e.
Proof. apply Qpower_0_lt. reflexivity. Qed.

Lemma p10_plus (a b : Z) :
  inject_Z 10 ^ (a + b) == inject_Z 10 ^ a * inject_Z 10 ^ b.
Proof. apply Qpower_plus. discriminate. Qed.

Lemma p10_Z (k : Z) : (0 <= k)%Z -> inject_Z 10 ^ k == inject_Z (10 ^ k).
Proof. intros; symmetry; apply Zpower_Qpower; assumption. Qed.

Lemma value_shift (c e k : Z) :
  (0 <= k)%Z -> value (mkDec (c * 10 ^ k) e) == value (mkDec c (e + k)).
Proof.
  intros Hk. unfold value; cbn [coeff expo].
  rewrite inject_Z_mult, p10_plus, <- (p10_Z k Hk). ring.
Qed.

Lemma value_align (d : Decimal) (m : Z) :
  (m <= expo d)%Z ->
  value d == inject_Z (coeff d * 10 ^ (expo d - m)) * inject_Z 10 ^ m.
Proof.
  intros Hm. destruct d as [c e]; cbn [coeff expo] in *.
  pose proof (value_shift c m (e - m) ltac:(lia)) as H.
  replace (m + (e - m))%Z with e in H by lia.
  rewrite <- H. reflexivity.
Qed.

Lemma value_zero (e : Z) : value (mkDec 0 e) == 0.
Proof. unfold value; cbn [coeff]. ring. Qed.

Lemma value_neg (x : Decimal) : value (neg x) == - value x.
Proof. unfold value, neg; cbn [coeff expo]. rewrite inject_Z_opp. ring. Qed.

(** Order facts for an integer scaled by a positive rational. *)
Lemma scaled_lt (a b : Z) (P : Q) :
  0 < P -> (inject_Z a * P < inject_Z b * P <-> (a < b)%Z).
Proof.
  intros HP. rewrite Zlt_Qlt. split; intros H.
  - apply Qmult_lt_r in H; assumption.
  - apply Qmult_lt_r; assumption.
Qed.

Lemma scaled_le (a b : Z) (P : Q) :
  0 < P -> (inject_Z a * P <= inject_Z b * P <-> (a <= b)%Z).
Proof.
  intros HP. rewrite Zle_Qle. split; intros H.
  - apply Qmult_le_r in H; assumption.
  - apply Qmult_le_r; assumption.
Qed.

Lemma scaled_eq (a b : Z) (P : Q) :
  0 < P -> (inject_Z a * P == inject_Z b * P <-> a = b).
Proof.
  intros HP. split; intros H.
  - apply Qmult_inj_r in H; [|lra]. unfold Qeq in H; simpl in H. lia.
  - rewrite H. reflexivity.
Qed.

Lemma value_sign (d : Decimal) :
  (0 < value d <-> (0 < coeff d)%Z) /\
  (value d == 0 <-> coeff d = 0%Z) /\
  (value d < 0 <-> (coeff d < 0)%Z).
Proof.
  unfold value. pose proof (p10_pos (expo d)) as Hp.
  set (P := inject_Z 10 ^ expo d) in *.
  assert (H0 : 0 == inject_Z 0 * P) by ring.
  split; [|split].
  - rewrite H0 at 1. apply scaled_lt; assumption.
  - rewrite H0 at 1. apply scaled_eq; assumption.
  - rewrite H0 at 1. apply scaled_lt; assumption.
Qed.

Lemma compare_spec (x y : Decimal) :
  match compare x y with
  | Lt => value x < value y
  | Eq => value x == value y
  | Gt => value y < value x
  end.
Proof.
  unfold compare. set (m := Z.min (expo x) (expo y)).
  pose proof (value_align x m ltac:(lia)) as Hx.
  pose proof (value_align y m ltac:(lia)) as Hy.
  pose proof (p10_pos m) as Hp. set (P := inject_Z 10 ^ m) in *.
  set (a := (coeff x * 10 ^ (expo x - m))%Z) in *.
  set (b := (coeff y * 10 ^ (expo y - m))%Z) in *.
  destruct (Z.compare_spec a b) as [E|L|G]; rewrite Hx, Hy.
  - rewrite E. reflexivity.
  - apply scaled_lt; assumption.
  - apply scaled_lt; assumption.
Qed.

Lemma ltb_spec (x y : Decimal) : ltb x y = true <-> value x < value y.
Proof.
  unfold ltb. pose proof (compare_spec x y) as H.
  destruct (compare x y); split; intros H'; try reflexivity; try discriminate; try lra.
Qed.

Lemma leb_spec (x y : Decimal) : leb x y = true <-> value x <= value y.
Proof.
  unfold leb. pose proof (compare_spec x y) as H.
  destruct (compare x y); split; intros H'; try reflexivity; try discriminate; try lra.
Qed.

Lemma eqb_spec (x y : Decimal) : eqb x y = true <-> value x == value y.
Proof.
  unfold eqb. pose proof (compare_spec x y) as H.
  destruct (compare x y); split; intros H'; try reflexivity; try discriminate; try lra.
Qed.

Lemma leb_false (x y : Decimal) : leb x y = false <-> value y < value x.
Proof.
  pose proof (leb_spec x y) as H. destruct (leb x y); split; intros H'; try discriminate; try reflexivity.
  - assert (value x <= value y) by (apply H; reflexivity). lra.
  - apply Qnot_le_lt. intros L. apply H in L. discriminate.
Qed.

Lemma ltb_false (x y : Decimal) : ltb x y = false <-> value y <= value x.
Proof.
  pose proof (ltb_spec x y) as H. destruct (ltb x y); split; intros H'; try discriminate; try reflexivity.
  - assert (value x < value y) by (apply H; reflexivity). lra.
  - apply Qnot_lt_le. intros L. apply H in L. discriminate.
Qed.

(** ** Rounding: [_fix] meets [Rnd] *)

Lemma Qabs_inject (z : Z) : Qabs (inject_Z z) = inject_Z (Z.abs z).
Proof. reflexivity. Qed.

Lemma Qabs_scale (a P : Q) : 0 < P -> Qabs (a * P) == Qabs a * P.
Proof. intros HP. rewrite Qabs_Qmult, (Qabs_pos P) by lra. reflexivity. Qed.

Lemma value_abs (d : Decimal) :
  Qabs (value d) == inject_Z (Z.abs (coeff d)) * inject_Z 10 ^ expo d.
Proof.
  unfold value. rewrite Qabs_scale by apply p10_pos.
  rewrite Qabs_inject. reflexivity.
Qed.

Lemma representable_digits (d : Decimal) :
  representable (value d) ->
  (ndigits (coeff d) <= prec)%Z \/
  (Z.abs (coeff d) mod 10 ^ (ndigits (coeff d) - prec) = 0)%Z.
Proof.
  intros (c1 & e1 & Hc1 & Hv).
  destruct (Z_le_gt_dec (ndigits (coeff d)) prec) as [Hle|Hgt]; [left; assumption|right].
  destruct d as [c e]; cbn [coeff expo] in *.
  destruct (ndigits_spec c) as (Hn1 & Hn2 & Hn3).
  assert (Hc : c <> 0%Z).
  { intros E. rewrite E in Hgt. vm_compute in Hgt. discriminate. }
  specialize (Hn3 Hc).
  set (n := ndigits c) in *. set (m := Z.min e e1).
  rewrite (value_align (mkDec c e) m), (value_align (mkDec c1 e1) m) in Hv
    by (cbn [expo]; lia).
  cbn [coeff expo] in Hv.
  pose proof (p10_pos m) as Hp.
  apply scaled_eq in Hv; [|assumption].
  assert (Hprec : (1 <= prec)%Z) by (unfold prec; lia).
  assert (Hlo : (10 ^ prec <= 10 ^ (n - 1))%Z) by (apply pow10_le; lia).
  destruct (Z_le_gt_dec e e1) as [Hee|Hee].
  - replace (e - m)%Z with 0%Z in Hv by lia. rewrite Z.pow_0_r, Z.mul_1_r in Hv.
    replace (e1 - m)%Z with (e1 - e)%Z in Hv by lia.
    set (j := (e1 - e)%Z) in *.
    assert (Hj : (0 <= j)%Z) by lia.
    pose proof (pow10_pos j Hj) as HJ.
    assert (Habs : (Z.abs c = Z.abs c1 * 10 ^ j)%Z) by (rewrite Hv, Z.abs_mul; lia).
    assert (Hjk : (n - prec <= j)%Z).
    { assert (H : (10 ^ (n - 1) < 10 ^ prec * 10 ^ j)%Z) by nia.
      rewrite <- pow10_add in H by lia.
      apply pow10_lt_inv in H; lia. }
    rewrite Habs. replace j with ((j - (n - prec)) + (n - prec))%Z by lia.
    rewrite pow10_add by lia. rewrite Z.mul_assoc. apply Z.mod_mul.
    pose proof (pow10_pos (n - prec) ltac:(lia)). lia.
  - exfalso. replace (e1 - m)%Z with 0%Z in Hv by lia.
    rewrite Z.pow_0_r, Z.mul_1_r in Hv.
    pose proof (pow10_pos (e - m) ltac:(lia)) as HJ.
    assert (Habs : (Z.abs c1 = Z.abs c * 10 ^ (e - m))%Z) by (rewrite <- Hv, Z.abs_mul; lia).
    nia.
Qed.

Lemma representable_proper (q q' : Q) :
  q == q' -> representable q -> representable q'.
Proof.
  intros E (c & e & H1 & H2). exists c, e. split; [assumption|].
  rewrite <- E. exact H2.
Qed.

Lemma Rnd_proper (q q' : Q) (z : Decimal) : q == q' -> Rnd q z -> Rnd q' z.
Proof.
  intros E (H1 & H2 & H3). split; [|split].
  - rewrite <- E. exact H1.
  - exact H2.
  - intros Hr. rewrite <- E. apply H3.
    apply (representable_proper q'); [symmetry|]; assumption.
Qed.

Lemma fix_Rnd (d : Decimal) : Rnd (value d) (fix_ d).
Proof.
  destruct (fix_spec d) as (K & HK & He & Hc & Herr & Hnz & Hex).
  assert (Hv : value (fix_ d)
               == inject_Z (coeff (fix_ d) * 10 ^ K) * inject_Z 10 ^ expo d).
  { pose proof (value_shift (coeff (fix_ d)) (expo d) K HK) as H.
    rewrite <- He in H. destruct (fix_ d); exact (Qeq_sym _ _ H). }
  pose proof (p10_pos (expo d)) as Hp.
  split; [|split].
  - rewrite value_abs.
    assert (Hd : value (fix_ d) - value d
                 == inject_Z (coeff (fix_ d) * 10 ^ K - coeff d)
                    * inject_Z 10 ^ expo d).
    { rewrite Hv. unfold value. unfold Z.sub. rewrite inject_Z_plus, inject_Z_opp. ring. }
    rewrite Hd, Qabs_scale, Qabs_inject by assumption.
    rewrite Zle_Qle, !inject_Z_mult in Herr.
    change (inject_Z 2 * inject_Z (10 ^ (prec - 1)))
      with (2000000000000000000000000000 # 1) in Herr.
    set (P := inject_Z 10 ^ expo d) in *.
    set (X := inject_Z (Z.abs (coeff (fix_ d) * 10 ^ K - coeff d))) in *.
    set (Y := inject_Z (Z.abs (coeff d))) in *.
    assert (HX : X <= u * Y) by (unfold u; lra).
    rewrite Qmult_assoc. apply Qmult_le_compat_r; [exact HX|lra].
  - exact Hc.
  - intros Hr. apply representable_digits in Hr. specialize (Hex Hr).
    rewrite Hv, Hex. reflexivity.
Qed.

(** ** The arithmetic operations round their exact results *)

Lemma add_exact (x y : Decimal) :
  let m := Z.min (expo x) (expo y) in
  value (mkDec (coeff x * 10 ^ (expo x - m) + coeff y * 10 ^ (expo y - m)) m)
  == value x + value y.
Proof.
  intros m. rewrite (value_align x m), (value_align y m) by lia.
  unfold value; cbn [coeff expo]. rewrite inject_Z_plus. ring.
Qed.

Lemma add_Rnd (x y : Decimal) : Rnd (value x + value y) (add x y).
Proof.
  unfold add. eapply Rnd_proper; [apply add_exact|apply fix_Rnd].
Qed.

Lemma sub_Rnd (x y : Decimal) : Rnd (value x - value y) (sub x y).
Proof.
  unfold sub. eapply Rnd_proper; [|apply add_Rnd].
  rewrite value_neg. ring.
Qed.

Lemma mul_exact (x y : Decimal) :
  value (mkDec (coeff x * coeff y) (expo x + expo y)) == value x * value y.
Proof.
  unfold value; cbn [coeff expo]. rewrite inject_Z_mult, p10_plus. ring.
Qed.

Lemma mul_Rnd (x y : Decimal) : Rnd (value x * value y) (mul x y).
Proof.
  unfold mul. eapply Rnd_proper; [apply mul_exact|apply fix_Rnd].
Qed.

Lemma abs_Rnd (x : Decimal) : Rnd (Qabs (value x)) (Dec.abs x).
Proof.
  unfold Dec.abs. eapply Rnd_proper; [|apply fix_Rnd].
  rewrite value_abs. reflexivity.
Qed.

(** The integers [a] and [b] that [__truediv__] divides: their quotient
    has more than [prec] digits. *)
Lemma div_scaling (A B : Z) :
  (0 < A)%Z -> (0 < B)%Z ->
  let shift := (ndigits B - ndigits A + prec + 1)%Z in
  let a := if (0 <=? shift)%Z then (A * 10 ^ shift)%Z else A in
  let b := if (0 <=? shift)%Z then B else (B * 10 ^ (- shift))%Z in
  (0 < b)%Z /\ (10 ^ prec * b <= a)%Z /\
  inject_Z a * inject_Z B == inject_Z A * inject_Z b * inject_Z 10 ^ shift.
Proof.
  intros HA HB shift a b.
  destruct (ndigits_spec A) as (HA1 & HA2 & HA3).
  destruct (ndigits_spec B) as (HB1 & HB2 & HB3).
  specialize (HA3 ltac:(lia)). specialize (HB3 ltac:(lia)).
  rewrite Z.abs_eq in HA2, HA3, HB2, HB3 by lia.
  assert (Hprec : (1 <= prec)%Z) by (unfold prec; lia).
  set (nA := ndigits A) in *. set (nB := ndigits B) in *.
  subst a b. destruct (Z.leb_spec 0 shift) as [Hs|Hs].
  - pose proof (pow10_pos shift Hs) as HS.
    split; [lia|]. split.
    + assert (H1 : (10 ^ (nA - 1) * 10 ^ shift = 10 ^ prec * 10 ^ nB)%Z).
      { rewrite <- !pow10_add by lia. f_equal. unfold shift. lia. }
      pose proof (pow10_pos prec ltac:(lia)). nia.
    + rewrite inject_Z_mult, (p10_Z shift Hs). ring.
  - pose proof (pow10_pos (- shift) ltac:(lia)) as HS.
    split; [nia|]. split.
    + assert (H1 : (10 ^ prec * (10 ^ nB * 10 ^ (- shift)) = 10 ^ (nA - 1))%Z).
      { rewrite <- !pow10_add by lia. f_equal. unfold shift. lia. }
      pose proof (pow10_pos prec ltac:(lia)). nia.
    + rewrite inject_Z_mult, <- (p10_Z (- shift)) by lia.
      assert (E : inject_Z 10 ^ (- shift) * inject_Z 10 ^ shift == 1).
      { rewrite <- p10_plus. replace (- shift + shift)%Z with 0%Z by lia. reflexivity. }
      rewrite <- (Qmult_assoc (inject_Z A)), <- (Qmult_assoc (inject_Z B)), E. ring.
Qed.

Lemma strip_zeros_value (fuel : nat) :
  forall s c e ideal,
  value (mkDec (s * fst (strip_zeros fuel c e ideal))
               (snd (strip_zeros fuel c e ideal)))
  == value (mkDec (s * c) e).
Proof.
  induction fuel as [|f IH]; intros s c e ideal; cbn [strip_zeros fst snd].
  - reflexivity.
  - destruct ((e <? ideal)%Z && (c mod 10 =? 0)%Z) eqn:Hb; [|reflexivity].
    apply andb_prop in Hb. destruct Hb as [_ Hm]. apply Z.eqb_eq in Hm.
    rewrite IH.
    assert (Hc : c = (c / 10 * 10 ^ 1)%Z).
    { change (10 ^ 1)%Z with 10%Z.
      pose proof (Z.div_mod c 10 ltac:(lia)). lia. }
    rewrite Hc at 2. rewrite Z.mul_assoc. apply Qeq_sym. apply value_shift. lia.
Qed.

Lemma inject_Z_sgn_abs (c : Z) : inject_Z c == inject_Z (Z.sgn c) * inject_Z (Z.abs c).
Proof. rewrite <- inject_Z_mult. apply inject_Z_injective. lia. Qed.

Lemma inject_Z_sgn_sq (c : Z) : c <> 0%Z -> inject_Z (Z.sgn c) * inject_Z (Z.sgn c) == 1.
Proof.
  intros Hc. rewrite <- inject_Z_mult.
  replace (Z.sgn c * Z.sgn c)%Z with 1%Z by lia. reflexivity.
Qed.

Lemma inject_Z_pos (z : Z) : (0 < z)%Z -> 0 < inject_Z z.
Proof. intros H. change 0 with (inject_Z 0). rewrite <- Zlt_Qlt. exact H. Qed.

(** The exact quotient in terms of the integers [__truediv__] divides. *)
Lemma quotient_value (x y : Decimal) :
  coeff x <> 0%Z -> coeff y <> 0%Z ->
  let shift := (ndigits (coeff y) - ndigits (coeff x) + prec + 1)%Z in
  let e := (expo x - expo y - shift)%Z in
  let a := if (0 <=? shift)%Z then (Z.abs (coeff x) * 10 ^ shift)%Z
           else Z.abs (coeff x) in
  let b := if (0 <=? shift)%Z then Z.abs (coeff y)
           else (Z.abs (coeff y) * 10 ^ (- shift))%Z in
  let s := (Z.sgn (coeff x) * Z.sgn (coeff y))%Z in
  (0 < b)%Z /\ (10 ^ prec * b <= a)%Z /\
  value x / value y == inject_Z (s * a) * inject_Z 10 ^ e * / inject_Z b.
Proof.
  intros Hx Hy shift e a b s.
  assert (HnA : ndigits (Z.abs (coeff x)) = ndigits (coeff x)).
  { unfold ndigits. rewrite Z.abs_idemp. reflexivity. }
  assert (HnB : ndigits (Z.abs (coeff y)) = ndigits (coeff y)).
  { unfold ndigits. rewrite Z.abs_idemp. reflexivity. }
  pose proof (div_scaling (Z.abs (coeff x)) (Z.abs (coeff y)) ltac:(lia) ltac:(lia)) as H.
  rewrite HnA, HnB in H. cbv zeta in H. fold shift in H. fold a b in H.
  destruct H as (Hb & Hab & Hq).
  split; [assumption|]. split; [assumption|].
  unfold value.
  rewrite (inject_Z_sgn_abs (coeff x)), (inject_Z_sgn_abs (coeff y)).
  subst s. rewrite !inject_Z_mult.
  pose proof (inject_Z_sgn_sq (coeff y) Hy) as Hsy.
  assert (HPE : inject_Z 10 ^ expo x
                == inject_Z 10 ^ e * inject_Z 10 ^ expo y * inject_Z 10 ^ shift).
  { rewrite <- !p10_plus. replace (e + expo y + shift)%Z with (expo x) by (unfold e; lia).
    reflexivity. }
  pose proof (p10_pos (expo y)) as HPY. pose proof (p10_pos e) as HPe.
  pose proof (p10_pos shift) as HPS.
  pose proof (inject_Z_pos b Hb) as Hib.
  pose proof (inject_Z_pos (Z.abs (coeff y)) ltac:(lia)) as HiB.
  set (sx := inject_Z (Z.sgn (coeff x))) in *.
  set (sy := inject_Z (Z.sgn (coeff y))) in *.
  set (iA := inject_Z (Z.abs (coeff x))) in *.
  set (iB := inject_Z (Z.abs (coeff y))) in *.
  set (ia := inject_Z a) in *. set (ib := inject_Z b) in *.
  set (PX := inject_Z 10 ^ expo x) in *. set (PY := inject_Z 10 ^ expo y) in *.
  set (PE := inject_Z 10 ^ e) in *. set (PS := inject_Z 10 ^ shift) in *.
  assert (Hsy0 : ~ sy == 0) by (intros E; rewrite E in Hsy; lra).
  apply (Qmult_inj_r _ _ (sy * iB * PY * ib)).
  { intros E. assert (E2 : sy * (sy * iB * PY * ib) == 0) by (rewrite E; ring).
    assert (E3 : sy * (sy * iB * PY * ib) == (sy * sy) * (iB * PY * ib)) by ring.
    rewrite E3, Hsy in E2.
    assert (0 < iB * PY * ib)
      by (apply Qmult_lt_0_compat; [apply Qmult_lt_0_compat|]; assumption).
    lra. }
  setoid_replace (sx * iA * PX / (sy * iB * PY) * (sy * iB * PY * ib))
    with (sx * iA * PX * ib) by (field; repeat split; lra).
  setoid_replace (sx * sy * ia * PE * / ib * (sy * iB * PY * ib))
    with (sx * (sy * sy) * (ia * iB) * PE * PY) by (field; lra).
  rewrite Hsy, Hq, HPE. ring.
Qed.

(** The sticky digit makes [_fix] round the inexact quotient [a / b]
    correctly. *)
Lemma sticky_error (a b : Z) :
  (0 < b)%Z -> (10 ^ prec * b <= a)%Z -> (a mod b <> 0)%Z ->
  let q := (a / b)%Z in
  let c := if (q mod 5 =? 0)%Z then (q + 1)%Z else q in
  let k := (ndigits c - prec)%Z in
  (0 < c)%Z /\ (prec < ndigits c)%Z /\
  (2 * 10 ^ (prec - 1)
   * Z.abs (round_half_even c k * 10 ^ k * b - a) <= a)%Z.
Proof.
  intros Hb Hab Hr q c k.
  assert (Hprec : (1 <= prec)%Z) by (unfold prec; lia).
  pose proof (pow10_pos prec ltac:(lia)) as HP.
  assert (Hdm : (a = b * q + a mod b)%Z) by (apply Z.div_mod; lia).
  assert (Hrb : (0 <= a mod b < b)%Z) by (apply Z.mod_pos_bound; lia).
  assert (Hq : (10 ^ prec <= q)%Z) by (apply Z.div_le_lower_bound; lia).
  assert (H5 : (0 <= q mod 5 < 5)%Z) by (apply Z.mod_pos_bound; lia).
  assert (Hq5 : (q = 5 * (q / 5) + q mod 5)%Z) by (apply Z.div_mod; lia).
  assert (Hc5 : (c mod 5 <> 0)%Z /\ (q <= c <= q + 1)%Z /\
                ((c = q) \/ (c = q + 1 /\ q mod 5 = 0))%Z).
  { subst c. destruct (Z.eqb_spec (q mod 5) 0) as [E|E].
    - split; [|lia].
      replace (q + 1)%Z with (1 + (q / 5) * 5)%Z by lia.
      rewrite Z.mod_add by lia. discriminate.
    - split; [assumption|lia]. }
  destruct Hc5 as (Hc5 & Hqc & Hcase).
  assert (Hc : (0 < c)%Z) by lia.
  destruct (ndigits_spec c) as (Hn1 & Hn2 & Hn3).
  specialize (Hn3 ltac:(lia)). rewrite Z.abs_eq in Hn2, Hn3 by lia.
  assert (Hnc : (prec < ndigits c)%Z).
  { apply pow10_lt_inv; lia. }
  split; [assumption|]. split; [assumption|].
  assert (Hk : (1 <= k)%Z) by (unfold k; lia).
  pose proof (round_half_even_sticky c k ltac:(lia) Hk Hc5) as Hst.
  set (m := round_half_even c k) in *.
  assert (HT : (10 ^ (ndigits c - 1) = 10 ^ (prec - 1) * 10 ^ k)%Z).
  { rewrite <- pow10_add by lia. f_equal. unfold k. lia. }
  rewrite HT in Hn3.
  assert (HT10 : (10 ^ k = 10 * 10 ^ (k - 1))%Z).
  { replace k with ((k - 1) + 1)%Z at 1 by lia. apply pow10_succ. lia. }
  pose proof (pow10_pos (k - 1) ltac:(lia)) as HT1.
  assert (HP1 : (0 < 10 ^ (prec - 1))%Z) by (apply pow10_pos; lia).
  set (T := (10 ^ k)%Z) in *. set (P1 := (10 ^ (prec - 1))%Z) in *.
  set (T1 := (10 ^ (k - 1))%Z) in *. set (r := (a mod b)%Z) in *.
  (* the quotient itself is at least [P1 * T] *)
  assert (HqT : (P1 * T <= q)%Z).
  { destruct Hcase as [E|[E E5]]; [lia|].
    destruct (Z.eq_dec c (P1 * T)) as [Ec|Ec]; [|lia].
    exfalso. apply Hc5. rewrite Ec, HT10.
    replace (P1 * (10 * T1))%Z with (P1 * 2 * T1 * 5)%Z by lia.
    apply Z.mod_mul. lia. }
  assert (Hclose : (Z.abs (c * b - a) <= b - 1)%Z).
  { destruct Hcase as [E|[E E5]]; rewrite E; lia. }
  assert (Herr : (2 * Z.abs (m * T * b - a) < T * b)%Z).
  { assert (E : (m * T * b - a = (m * T - c) * b + (c * b - a))%Z) by lia.
    rewrite E.
    assert (Z.abs ((m * T - c) * b + (c * b - a))
            <= Z.abs (m * T - c) * b + Z.abs (c * b - a))%Z.
    { pose proof (Z.abs_triangle ((m * T - c) * b) (c * b - a)) as Ht.
      rewrite (Z.abs_mul (m * T - c) b), (Z.abs_eq b) in Ht by lia. exact Ht. }
    nia. }
  assert (Ha : (P1 * (T * b) <= a)%Z) by nia.
  nia.
Qed.

(** An inexact quotient of more than [prec] digits is not representable. *)
Lemma inexact_not_representable (a b s e : Z) :
  (0 < b)%Z -> (10 ^ prec * b <= a)%Z -> (a mod b <> 0)%Z ->
  (s = 1 \/ s = -1)%Z ->
  ~ representable (inject_Z (s * a) * inject_Z 10 ^ e * / inject_Z b).
Proof.
  intros Hb Hab Hr Hs (c1 & e1 & Hc1 & Hv).
  pose proof (inject_Z_pos b Hb) as Hib.
  assert (Hv' : value (mkDec (s * a) e) == value (mkDec (c1 * b) e1)).
  { unfold value in *; cbn [coeff expo] in *. rewrite (inject_Z_mult c1 b).
    rewrite <- (Qmult_assoc (inject_Z c1)), (Qmult_comm (inject_Z b)), Qmult_assoc.
    rewrite <- Hv. field. lra. }
  set (m := Z.min e e1).
  rewrite (value_align (mkDec (s * a) e) m), (value_align (mkDec (c1 * b) e1) m) in Hv'
    by (cbn [expo]; lia).
  cbn [coeff expo] in Hv'. apply scaled_eq in Hv'; [|apply p10_pos].
  pose proof (pow10_pos prec ltac:(unfold prec; lia)) as HP.
  assert (Ha : (0 < a)%Z) by nia.
  destruct (Z_le_gt_dec e e1) as [Hee|Hee].
  - replace (e - m)%Z with 0%Z in Hv' by lia. rewrite Z.pow_0_r, Z.mul_1_r in Hv'.
    apply Hr.
    assert (E : (a = (s * c1 * 10 ^ (e1 - m)) * b)%Z) by nia.
    rewrite E. apply Z.mod_mul. lia.
  - replace (e1 - m)%Z with 0%Z in Hv' by lia. rewrite Z.pow_0_r, Z.mul_1_r in Hv'.
    pose proof (pow10_pos (e - m) ltac:(lia)) as HJ.
    assert (E : (a * 10 ^ (e - m) = Z.abs c1 * b)%Z).
    { assert (E1 : (Z.abs (s * a * 10 ^ (e - m)) = Z.abs (c1 * b))%Z) by (rewrite Hv'; reflexivity).
      rewrite !Z.abs_mul in E1. rewrite (Z.abs_eq a), (Z.abs_eq b), (Z.abs_eq (10 ^ (e - m))) in E1 by lia.
      replace (Z.abs s) with 1%Z in E1 by lia. lia. }
    nia.
Qed.

Lemma ndigits_sign (s c : Z) :
  (s = 1 \/ s = -1)%Z -> ndigits (s * c) = ndigits c.
Proof.
  intros Hs. unfold ndigits.
  replace (Z.abs (s * c)) with (Z.abs c) by (destruct Hs; subst s; lia).
  reflexivity.
Qed.

Lemma div_zero_divisor (x y : Decimal) :
  coeff y = 0%Z ->
  div x y = Raise (if (coeff x =? 0)%Z then InvalidOperation else DivisionByZero).
Proof.
  intros Hy. unfold div. rewrite Hy. cbn. destruct (coeff x =? 0)%Z; reflexivity.
Qed.

Lemma div_Rnd (x y : Decimal) :
  coeff y <> 0%Z -> exists z, div x y = Ok z /\ Rnd (value x / value y) z.
Proof.
  intros Hy. unfold div.
  destruct (Z.eqb_spec (coeff y) 0) as [E|_]; [contradiction|].
  destruct (Z.eqb_spec (coeff x) 0) as [Hx|Hx].
  { eexists; split; [reflexivity|].
    eapply Rnd_proper; [|apply fix_Rnd].
    rewrite value_zero. unfold value. rewrite Hx. unfold Qdiv. ring. }
  destruct (quotient_value x y Hx Hy) as (Hb & Hab & Hq).
  cbv zeta.
  set (shift := (ndigits (coeff y) - ndigits (coeff x) + prec + 1)%Z) in *.
  set (e := (expo x - expo y - shift)%Z) in *.
  set (a := if (0 <=? shift)%Z then (Z.abs (coeff x) * 10 ^ shift)%Z
            else Z.abs (coeff x)) in *.
  set (b := if (0 <=? shift)%Z then Z.abs (coeff y)
            else (Z.abs (coeff y) * 10 ^ (- shift))%Z) in *.
  set (s := (Z.sgn (coeff x) * Z.sgn (coeff y))%Z) in *.
  assert (Hs : (s = 1 \/ s = -1)%Z) by (unfold s; lia).
  pose proof (inject_Z_pos b Hb) as Hib.
  pose proof (p10_pos e) as HPE.
  destruct (Z.eqb_spec (a mod b) 0) as [Hr|Hr].
  - (* exact quotient *)
    destruct (strip_zeros (Z.to_nat (expo x - expo y - e)) (a / b) e
                          (expo x - expo y)) as [c e'] eqn:Hst.
    eexists; split; [reflexivity|].
    eapply Rnd_proper; [|apply fix_Rnd].
    pose proof (strip_zeros_value (Z.to_nat (expo x - expo y - e)) s (a / b) e
                                  (expo x - expo y)) as Hv.
    rewrite Hst in Hv. cbn [fst snd] in Hv. rewrite Hv, Hq.
    assert (Ea : (a = a / b * b)%Z).
    { pose proof (Z.div_mod a b ltac:(lia)). lia. }
    unfold value; cbn [coeff expo]. rewrite Ea at 2.
    rewrite !inject_Z_mult. field. lra.
  - (* inexact quotient: sticky digit, then rounding *)
    eexists; split; [reflexivity|].
    destruct (sticky_error a b Hb Hab Hr) as (Hc & Hnc & Herr).
    set (c := if ((a / b) mod 5 =? 0)%Z then (a / b + 1)%Z else (a / b)%Z) in *.
    cbv zeta in Herr.
    set (k := (ndigits c - prec)%Z) in *.
    set (m := round_half_even c k) in *.
    destruct (fix_shape (mkDec (s * c) e)) as [[Hle _]|(_ & K & HK & He & Hcf & Hsh)].
    { cbn [coeff] in Hle. rewrite ndigits_sign in Hle by assumption. lia. }
    cbn [coeff expo] in *. rewrite ndigits_sign in Hsh by assumption.
    replace (Z.abs (s * c)) with c in Hsh by (destruct Hs; subst s; lia).
    replace (Z.sgn (s * c)) with s in Hsh by (destruct Hs as [Hs|Hs]; rewrite Hs; lia).
    fold k in Hsh. fold m in Hsh.
    set (z := fix_ (mkDec (s * c) e)) in *.
    assert (Hv : value z == inject_Z (s * (m * 10 ^ k)) * inject_Z 10 ^ e).
    { pose proof (value_shift (coeff z) e K HK) as H.
      rewrite <- He, Hsh in H. destruct z; exact (Qeq_sym _ _ H). }
    split; [|split].
    + rewrite Hq.
      assert (Hd : value z - inject_Z (s * a) * inject_Z 10 ^ e * / inject_Z b
                   == inject_Z (s * (m * 10 ^ k * b - a))
                      * (inject_Z 10 ^ e * / inject_Z b)).
      { rewrite Hv. unfold Z.sub. rewrite !inject_Z_mult, inject_Z_plus, inject_Z_opp.
        rewrite !inject_Z_mult. field. lra. }
      assert (HPb : 0 < inject_Z 10 ^ e * / inject_Z b).
      { apply Qmult_lt_0_compat; [assumption|]. apply Qinv_lt_0_compat. assumption. }
      rewrite Hd, <- Qmult_assoc, !Qabs_scale, !Qabs_inject by assumption.
      replace (Z.abs (s * (m * 10 ^ k * b - a))) with (Z.abs (m * 10 ^ k * b - a))
        by (destruct Hs as [Hs|Hs]; rewrite Hs; lia).
      replace (Z.abs (s * a)) with (Z.abs a) by (destruct Hs as [Hs|Hs]; rewrite Hs; lia).
      rewrite Zle_Qle, !inject_Z_mult in Herr.
      change (inject_Z 2 * inject_Z (10 ^ (prec - 1)))
        with (2000000000000000000000000000 # 1) in Herr.
      assert (Ha0 : (0 < a)%Z) by (pose proof (pow10_pos prec ltac:(unfold prec; lia)); nia).
      rewrite (Z.abs_eq a) by lia.
      set (X := inject_Z (Z.abs (m * 10 ^ k * b - a))) in *.
      set (Y := inject_Z a) in *.
      assert (HX : X <= u * Y) by (unfold u; lra).
      set (W := inject_Z 10 ^ e * / inject_Z b) in *.
      setoid_replace (u * (Y * W)) with (u * Y * W) by ring.
      apply Qmult_le_compat_r; [exact HX|lra].
    + exact Hcf.
    + intros Hrep. exfalso.
      apply (inexact_not_representable a b s e Hb Hab Hr Hs).
      eapply representable_proper; [exact Hq|exact Hrep].
Qed.

(** ** What a rounding keeps *)

Lemma u_bounds : 0 < u /\ u < 1.
Proof. split; reflexivity. Qed.

Lemma Rnd_bounds (q : Q) (z : Decimal) :
  Rnd q z -> 0 <= q -> (1 - u) * q <= value z /\ value z <= (1 + u) * q.
Proof.
  intros (H & _ & _) Hq. rewrite (Qabs_pos q) in H by assumption.
  apply Qabs_Qle_condition in H. lra.
Qed.

Lemma Rnd_pos (q : Q) (z : Decimal) : Rnd q z -> 0 < q -> 0 < value z.
Proof.
  intros H Hq. destruct (Rnd_bounds q z H ltac:(lra)) as [Hlo _].
  pose proof u_bounds as [_ Hu].
  assert (0 < (1 - u) * q) by (apply Qmult_lt_0_compat; lra). lra.
Qed.

Lemma Rnd_zero (q : Q) (z : Decimal) : Rnd q z -> q == 0 -> value z == 0.
Proof.
  intros (H & _ & _) Hq. rewrite Hq in H. change (Qabs 0) with 0 in H.
  apply Qabs_Qle_condition in H. lra.
Qed.

Lemma Rnd_neg (q : Q) (z : Decimal) : Rnd q z -> q < 0 -> value z < 0.
Proof.
  intros (H & _ & _) Hq. rewrite (Qabs_neg q) in H by lra.
  apply Qabs_Qle_condition in H.
  pose proof u_bounds as [_ Hu].
  assert (0 < (1 - u) * - q) by (apply Qmult_lt_0_compat; lra). lra.
Qed.

Lemma Rnd_exact (q : Q) (z : Decimal) : Rnd q z -> representable q -> value z == q.
Proof. intros (_ & _ & H). exact H. Qed.

Lemma Rnd_representable (q : Q) (z : Decimal) : Rnd q z -> representable (value z).
Proof.
  intros (_ & H & _). exists (coeff z), (expo z). split; [assumption|].
  destruct z; reflexivity.
Qed.

Lemma representable_opp (q : Q) : representable q -> representable (- q).
Proof.
  intros (c & e & Hc & Hq). exists (- c)%Z, e. split; [lia|].
  rewrite Hq. unfold value; cbn [coeff expo]. rewrite inject_Z_opp. ring.
Qed.

Lemma representable_Qabs (q : Q) : representable q -> representable (Qabs q).
Proof.
  intros (c & e & Hc & Hq). exists (Z.abs c), e. split; [lia|].
  rewrite Hq. apply (value_abs (mkDec c e)).
Qed.

Lemma representable_Z (n : Z) : (Z.abs n < 10 ^ prec)%Z -> representable (inject_Z n).
Proof.
  intros Hn. exists n, 0%Z. split; [assumption|].
  unfold value; cbn [coeff expo]. change (inject_Z 10 ^ 0) with 1. ring.
Qed.

(** Dividing a number of at most [prec] digits by itself gives one. *)
Lemma div_self (x : Decimal) :
  coeff x <> 0%Z -> exists z, div x x = Ok z /\ value z == 1.
Proof.
  intros Hx. destruct (div_Rnd x x Hx) as (z & Hz & HR).
  exists z. split; [assumption|].
  assert (Hv : ~ value x == 0) by (intros E; apply value_sign in E; contradiction).
  assert (E1 : value x / value x == 1) by (field; assumption).
  rewrite <- E1. apply (Rnd_exact _ _ HR).
  apply (representable_proper 1); [symmetry; exact E1|].
  apply (representable_Z 1). reflexivity.
Qed.

End DecFacts.

(* ================================================================== *)
(** * src/utils/amm_pricing.py: guards, errors and the zero-input quote *)

Module AmmPricingFacts.

Import DecFacts AmmPricing.
Local Open Scope Q_scope.

Lemma value_d0 : value d0 == 0.
Proof. reflexivity. Qed.

Lemma value_d1 : value d1 == 1.
Proof. reflexivity. Qed.

Lemma leb_int0 (x : Decimal) : (x <=? int0)%dec = true <-> value x <= 0.
Proof. rewrite leb_spec. reflexivity. Qed.

Lemma leb_int0_false (x : Decimal) : (x <=? int0)%dec = false <-> 0 < value x.
Proof. rewrite leb_false. reflexivity. Qed.

Lemma gtb_int0 (x : Decimal) : (x >? int0)%dec = true <-> 0 < value x.
Proof. unfold gtb. rewrite ltb_spec. reflexivity. Qed.

Lemma gtb_int0_false (x : Decimal) : (x >? int0)%dec = false <-> value x <= 0.
Proof. unfold gtb. rewrite ltb_false. reflexivity. Qed.

(** ** C6 *)

(** C6: [calculate_constant_product_input] raises the "cannot swap more
    than pool reserve" [ValueError] (ExceedsReserve) for every positive
    [amount_out] that is at least [reserve_out], whatever the other
    arguments, in particular for 2001 against 2000; and for
    [amount_out <= 0] it returns 0 instead of failing. *)
Theorem input_exceeds_reserve
    (amount_out reserve_in reserve_out fee_rate : Decimal) :
  (0 < value amount_out -> value reserve_out <= value amount_out ->
   calculate_constant_product_input amount_out reserve_in reserve_out fee_rate
   = Raise ExceedsReserve) /\
  (value amount_out <= 0 ->
   calculate_constant_product_input amount_out reserve_in reserve_out fee_rate
   = Ok d0) /\
  calculate_constant_product_input (mkDec 2001 0) reserve_in (mkDec 2000 0)
                                   fee_rate
  = Raise ExceedsReserve.
Proof.
  unfold calculate_constant_product_input. split; [|split].
  - intros Hpos Hge.
    apply leb_int0_false in Hpos. rewrite Hpos.
    unfold geb. apply leb_spec in Hge. rewrite Hge. reflexivity.
  - intros Hle. apply leb_int0 in Hle. rewrite Hle. reflexivity.
  - reflexivity.
Qed.

Lemma input_exceeds_reserve_witness :
  calculate_constant_product_input (mkDec 25 2) (mkDec 1000 0) (mkDec 2000 0)
                                   (mkDec 3 (-3))
  = Raise ExceedsReserve /\
  calculate_constant_product_input (mkDec (-7) 0) (mkDec 1000 0) (mkDec 2000 0)
                                   (mkDec 3 (-3))
  = Ok d0.
Proof.
  split.
  - apply (proj1 (input_exceeds_reserve (mkDec 25 2) (mkDec 1000 0)
                    (mkDec 2000 0) (mkDec 3 (-3)))); vm_compute; congruence.
  - apply (proj1 (proj2 (input_exceeds_reserve (mkDec (-7) 0) (mkDec 1000 0)
                    (mkDec 2000 0) (mkDec 3 (-3))))); vm_compute; congruence.
Defined.

(** ** C8 *)

(** C8, as stated, fails: with [amount_in = 0] a pool whose
    [reserve_in] is 0 is not rejected, the function returns 0. *)
Lemma output_zero_amount_ignores_reserves :
  value (mkDec 0 0) <= 0 /\
  calculate_constant_product_output (mkDec 0 0) (mkDec 0 0) (mkDec 2000 0)
                                    (mkDec 3 (-3))
  = Ok d0.
Proof. split; [vm_compute; congruence|reflexivity]. Qed.

(** C8 (amended): for every [amount_in > 0] and every [fee_rate], a pool
    with [reserve_in <= 0] or [reserve_out <= 0] is rejected with the
    "pool reserves must be positive" [ValueError] (InvalidReserves); for
    [amount_in <= 0] the function returns 0 before looking at the
    reserves. *)
Theorem output_invalid_reserves
    (amount_in reserve_in reserve_out fee_rate : Decimal) :
  (0 < value amount_in ->
   value reserve_in <= 0 \/ value reserve_out <= 0 ->
   calculate_constant_product_output amount_in reserve_in reserve_out fee_rate
   = Raise InvalidReserves) /\
  (value amount_in <= 0 ->
   calculate_constant_product_output amount_in reserve_in reserve_out fee_rate
   = Ok d0).
Proof.
  unfold calculate_constant_product_output. split.
  - intros Hpos Hres. apply leb_int0_false in Hpos. rewrite Hpos.
    destruct Hres as [H|H]; apply leb_int0 in H; rewrite H.
    + reflexivity.
    + rewrite orb_true_r. reflexivity.
  - intros Hle. apply leb_int0 in Hle. rewrite Hle. reflexivity.
Qed.

Lemma output_invalid_reserves_witness :
  calculate_constant_product_output (mkDec 100 0) (mkDec 1000 0)
                                    (mkDec (-2000) 0) (mkDec 3 (-3))
  = Raise InvalidReserves /\
  calculate_constant_product_output (mkDec (-10) 0) (mkDec 0 0)
                                    (mkDec 2000 0) (mkDec 3 (-3))
  = Ok d0.
Proof.
  split.
  - apply (proj1 (output_invalid_reserves (mkDec 100 0) (mkDec 1000 0)
                    (mkDec (-2000) 0) (mkDec 3 (-3)))).
    + vm_compute; congruence.
    + right. vm_compute; congruence.
  - apply (proj2 (output_invalid_reserves (mkDec (-10) 0) (mkDec 0 0)
                    (mkDec 2000 0) (mkDec 3 (-3)))). vm_compute; congruence.
Defined.

(** ** C1 *)

Lemma coeff_nonzero (x : Decimal) : ~ value x == 0 -> coeff x <> 0%Z.
Proof. intros H E. apply H. apply value_sign. exact E. Qed.

Lemma fee_factor_Rnd (fee_rate : Decimal) :
  Rnd (1 - value fee_rate) (d1 - fee_rate)%dec.
Proof.
  eapply Rnd_proper; [|apply sub_Rnd]. rewrite value_d1. reflexivity.
Qed.

Lemma fee_factor_nonneg (fee_rate : Decimal) :
  value fee_rate <= 1 -> 0 <= value (d1 - fee_rate)%dec.
Proof.
  intros Hf. pose proof (fee_factor_Rnd fee_rate) as HR.
  destruct (Qlt_le_dec 0 (1 - value fee_rate)) as [Hp|Hz].
  - apply Qlt_le_weak. apply (Rnd_pos _ _ HR Hp).
  - assert (E : 1 - value fee_rate == 0) by lra.
    rewrite (Rnd_zero _ _ HR E). lra.
Qed.

Lemma mul_nonneg (x y : Decimal) :
  0 <= value x -> 0 <= value y -> 0 <= value (x * y)%dec.
Proof.
  intros Hx Hy. pose proof (mul_Rnd x y) as HR.
  assert (H0 : 0 <= value x * value y) by (apply Qmult_le_0_compat; assumption).
  destruct (Rnd_bounds _ _ HR H0) as [Hlo _].
  pose proof u_bounds as [_ Hu].
  assert (0 <= (1 - u) * (value x * value y)) by (apply Qmult_le_0_compat; lra).
  lra.
Qed.

Lemma add_pos (x y : Decimal) :
  0 < value x -> 0 <= value y -> 0 < value (x + y)%dec.
Proof.
  intros Hx Hy. apply (Rnd_pos _ _ (add_Rnd x y)). lra.
Qed.




(** ** C10 *)

Lemma value_d100 : value d100 == 100.
Proof. reflexivity. Qed.

(** The price impact the quote reports when the effective price is 0. *)
Lemma impact_of_zero_price (spot_price : Decimal) :
  0 < value spot_price -> representable (value spot_price) ->
  exists q,
    (Dec.abs (d0 - spot_price) / spot_price)%dec = Ok q /\
    value (q * d100)%dec == 100.
Proof.
  intros Hpos Hrep.
  assert (Hsub : value (d0 - spot_price)%dec == - value spot_price).
  { pose proof (sub_Rnd d0 spot_price) as HR.
    assert (E : value d0 - value spot_price == - value spot_price)
      by (rewrite value_d0; ring).
    apply (Rnd_proper _ _ _ E) in HR.
    apply (Rnd_exact _ _ HR). apply representable_opp. exact Hrep. }
  assert (Habs : value (Dec.abs (d0 - spot_price)%dec) == value spot_price).
  { pose proof (abs_Rnd (d0 - spot_price)%dec) as HR.
    assert (E : Qabs (value (d0 - spot_price)%dec) == value spot_price).
    { rewrite Hsub, Qabs_opp. apply Qabs_pos. lra. }
    apply (Rnd_proper _ _ _ E) in HR.
    apply (Rnd_exact _ _ HR). exact Hrep. }
  assert (Hc : coeff spot_price <> 0%Z) by (apply coeff_nonzero; lra).
  destruct (div_Rnd (Dec.abs (d0 - spot_price)%dec) spot_price Hc)
    as (q & Hq & HR).
  exists q. split; [exact Hq|].
  assert (E1 : value (Dec.abs (d0 - spot_price)%dec) / value spot_price == 1).
  { rewrite Habs. field. lra. }
  apply (Rnd_proper _ _ _ E1) in HR.
  assert (Hq1 : value q == 1).
  { apply (Rnd_exact _ _ HR). apply (representable_Z 1). reflexivity. }
  pose proof (mul_Rnd q d100) as HM.
  assert (E2 : value q * value d100 == 100) by (rewrite Hq1, value_d100; ring).
  apply (Rnd_proper _ _ _ E2) in HM.
  apply (Rnd_exact _ _ HM). apply (representable_Z 100). reflexivity.
Qed.



End AmmPricingFacts.

(* ================================================================== *)
(** * run_cosa_arb.py: the simulated cycle and the decision *)

Module CosaArbFacts.

Import DecFacts CosaArb.
Local Open Scope Q_scope.
Local Open Scope string_scope.

(** ** C3 *)


(** ** C9 *)


(** C9: in the scenario the cycle is found profitable (ratio 1199999
    against the threshold 0.05), yet execution does not proceed without
    the operator: the loop calls [input()], so with nothing on standard
    input the cycle raises [EOFError] and places no order, and with the
    answer "no" it is skipped; only a "yes"/"y" line leads to the three
    orders. *)
Theorem scenario_requires_confirmation :
  calculate_conversion_rates scenario_config
    [("ETH/USDT", mkDec 100 0); ("ETH/BTC", mkDec 1 (-1));
     ("BTC/USDT", mkDec 1200 0)] = Ok scenario_rates /\
  simulate_cycle scenario_config scenario_rates = Ok scenario_evaluation /\
  profitable scenario_evaluation = true /\
  run_cycle scenario_feed accept_order scenario_config [] = Raise EOFError /\
  run_cycle scenario_feed accept_order scenario_config ["no"]
  = Ok (SkippedByUser scenario_evaluation, []) /\
  exists orders,
    run_cycle scenario_feed accept_order scenario_config ["yes"]
    = Ok (Executed scenario_evaluation true orders, []) /\
    List.length orders = 3%nat.
Proof.
  split; [vm_compute; reflexivity|].
  split; [vm_compute; reflexivity|].
  split; [reflexivity|].
  split; [vm_compute; reflexivity|].
  split; [vm_compute; reflexivity|].
  eexists. split; [vm_compute; reflexivity|reflexivity].
Qed.

End CosaArbFacts.

(* ================================================================== *)
(** * Rounding errors through a formula *)

Module ApproxFacts.

Import DecFacts Approx AmmPricingFacts.
Local Open Scope Q_scope.

Lemma rho_gt_1 : 1 < rho.
Proof. reflexivity. Qed.

Lemma rho_u : rho * (1 - u) == 1.
Proof. reflexivity. Qed.

Lemma near_pos (r a b : Q) : 0 < r -> near r a b -> 0 < b.
Proof.
  intros Hr (Ha & Hab & _).
  destruct (Qlt_le_dec 0 b) as [|Hb]; [assumption|exfalso].
  assert (r * b <= 0).
  { setoid_replace (r * b) with (- (r * (- b))) by ring.
    assert (0 <= r * (- b)) by (apply Qmult_le_0_compat; lra). lra. }
  lra.
Qed.

Lemma near_refl (a : Q) : 0 < a -> near 1 a a.
Proof. intros Ha. unfold near. repeat split; lra. Qed.

Lemma near_proper (r a a' b b' : Q) :
  a == a' -> b == b' -> near r a b -> near r a' b'.
Proof. intros Ea Eb (H1 & H2 & H3). unfold near. rewrite <- Ea, <- Eb. auto. Qed.

Lemma near_weaken (r r' a b : Q) :
  0 < r -> r <= r' -> near r a b -> near r' a b.
Proof.
  intros Hr Hrr H. pose proof (near_pos r a b Hr H) as Hb.
  destruct H as (Ha & H1 & H2). unfold near. split; [assumption|]. split.
  - apply Qle_trans with (r * b); [assumption|].
    apply Qmult_le_compat_r; lra.
  - apply Qle_trans with (r * a); [assumption|].
    apply Qmult_le_compat_r; lra.
Qed.

Lemma near_trans (r r' a b c : Q) :
  0 < r -> 0 < r' -> near r a b -> near r' b c -> near (r * r') a c.
Proof.
  intros Hr Hr' (Ha & H1 & H2) (Hb & H3 & H4). unfold near.
  split; [assumption|]. split.
  - apply Qle_trans with (r * b); [assumption|].
    setoid_replace (r * r' * c) with (r * (r' * c)) by ring.
    apply Qmult_le_l; assumption.
  - apply Qle_trans with (r' * b); [assumption|].
    setoid_replace (r * r' * a) with (r' * (r * a)) by ring.
    apply Qmult_le_l; assumption.
Qed.

(** One rounding of a positive number. *)
Lemma Rnd_near (q : Q) (z : Decimal) : 0 < q -> Rnd q z -> near rho q (value z).
Proof.
  intros Hq HR. destruct (Rnd_bounds q z HR ltac:(lra)) as [Hlo Hhi].
  unfold near. split; [assumption|]. split.
  - assert (E : q == rho * ((1 - u) * q)).
    { setoid_replace (rho * ((1 - u) * q)) with (rho * (1 - u) * q) by ring.
      rewrite rho_u. ring. }
    rewrite E at 1. apply Qmult_le_l; [reflexivity|assumption].
  - apply Qle_trans with ((1 + u) * q); [assumption|].
    apply Qmult_le_compat_r; [|lra]. vm_compute. congruence.
Qed.

Lemma near_Rnd (r a b : Q) (z : Decimal) :
  0 < r -> near r a b -> Rnd b z -> near (r * rho) a (value z).
Proof.
  intros Hr H HR. apply (near_trans r rho a b); try assumption.
  - reflexivity.
  - apply Rnd_near; [apply (near_pos r a b); assumption|assumption].
Qed.

Lemma near_mul (r r' a b c d : Q) :
  0 < r -> 0 < r' -> near r a b -> near r' c d -> near (r * r') (a * c) (b * d).
Proof.
  intros Hr Hr' H H'.
  pose proof (near_pos _ _ _ Hr H) as Hb. pose proof (near_pos _ _ _ Hr' H') as Hd.
  destruct H as (Ha & H1 & H2). destruct H' as (Hc & H3 & H4).
  unfold near. split; [apply Qmult_lt_0_compat; assumption|]. split.
  - setoid_replace (r * r' * (b * d)) with ((r * b) * (r' * d)) by ring.
    apply Qle_trans with ((r * b) * c).
    + apply Qmult_le_compat_r; lra.
    + apply Qmult_le_l; [apply Qmult_lt_0_compat; assumption|assumption].
  - setoid_replace (r * r' * (a * c)) with ((r * a) * (r' * c)) by ring.
    apply Qle_trans with ((r * a) * d).
    + apply Qmult_le_compat_r; lra.
    + apply Qmult_le_l; [apply Qmult_lt_0_compat; assumption|assumption].
Qed.

Lemma near_inv (r a b : Q) : 0 < r -> near r a b -> near r (/ a) (/ b).
Proof.
  intros Hr H. pose proof (near_pos _ _ _ Hr H) as Hb.
  destruct H as (Ha & H1 & H2).
  assert (Hia : 0 < / a) by (apply Qinv_lt_0_compat; assumption).
  assert (Hib : 0 < / b) by (apply Qinv_lt_0_compat; assumption).
  unfold near. split; [assumption|]. split.
  - (* / a <= r / b, from b <= r * a *)
    apply Qle_shift_div_r in H2; [|assumption].
    (* b / a <= r *)
    setoid_replace (/ a) with ((b / a) * / b) by (field; lra).
    apply Qmult_le_compat_r; lra.
  - apply Qle_shift_div_r in H1; [|assumption].
    setoid_replace (/ b) with ((a / b) * / a) by (field; lra).
    apply Qmult_le_compat_r; lra.
Qed.

Lemma near_div (r r' a b c d : Q) :
  0 < r -> 0 < r' -> near r a b -> near r' c d -> near (r * r') (a / c) (b / d).
Proof.
  intros Hr Hr' H H'. unfold Qdiv.
  apply near_mul; try assumption. apply near_inv; assumption.
Qed.

Lemma near_add (r a b c d : Q) :
  near r a b -> near r c d -> near r (a + c) (b + d).
Proof.
  intros (Ha & H1 & H2) (Hc & H3 & H4). unfold near.
  split; [lra|]. split.
  - setoid_replace (r * (b + d)) with (r * b + r * d) by ring. lra.
  - setoid_replace (r * (a + c)) with (r * a + r * c) by ring. lra.
Qed.

(** The relative error a factor allows. *)
Lemma near_error (r a b : Q) :
  1 <= r -> near r a b -> Qabs (b - a) <= (r - 1) * a.
Proof.
  intros Hr H. assert (Hr0 : 0 < r) by lra.
  pose proof (near_pos _ _ _ Hr0 H) as Hb.
  destruct H as (Ha & H1 & H2).
  apply Qabs_Qle_condition. split.
  - (* [(2 - r) * a <= b], since [r * (2 - r) <= 1] and [a <= r * b] *)
    assert (Hsq : 0 <= (r - 1) * (r - 1) * a).
    { apply Qmult_le_0_compat; [apply Qmult_le_0_compat|]; lra. }
    assert (Hrb : r * ((2 - r) * a) <= r * b).
    { setoid_replace (r * ((2 - r) * a)) with (a - (r - 1) * (r - 1) * a) by ring.
      lra. }
    apply Qmult_le_l in Hrb; [|lra].
    setoid_replace ((2 - r) * a) with (a - (r - 1) * a) in Hrb by ring. lra.
  - setoid_replace ((r - 1) * a) with (r * a - a) by ring. lra.
Qed.

(** ** The operations, with their operands already approximate *)

Lemma near_eps (r a b : Q) :
  0 < r -> r <= 1 + eps -> near r a b -> Qabs (b - a) <= eps * a.
Proof.
  intros Hr Hle H.
  apply (near_weaken r (1 + eps)) in H; try assumption.
  apply near_error in H; [|vm_compute; congruence].
  setoid_replace (eps * a) with ((1 + eps - 1) * a) by ring. exact H.
Qed.

Lemma mul_near (r r' a b : Q) (x y : Decimal) :
  0 < r -> 0 < r' -> near r a (value x) -> near r' b (value y) ->
  near (r * r' * rho) (a * b) (value (x * y)%dec).
Proof.
  intros Hr Hr' Hx Hy.
  apply (near_Rnd (r * r') (a * b) (value x * value y)).
  - apply Qmult_lt_0_compat; assumption.
  - apply near_mul; assumption.
  - apply mul_Rnd.
Qed.

Lemma add_near (r a b : Q) (x y : Decimal) :
  0 < r -> near r a (value x) -> near r b (value y) ->
  near (r * rho) (a + b) (value (x + y)%dec).
Proof.
  intros Hr Hx Hy.
  apply (near_Rnd r (a + b) (value x + value y)); [assumption| |apply add_Rnd].
  apply near_add; assumption.
Qed.

Lemma div_near (r r' a b : Q) (x y : Decimal) :
  0 < r -> 0 < r' -> near r a (value x) -> near r' b (value y) ->
  exists z, (x / y)%dec = Ok z /\ near (r * r' * rho) (a / b) (value z).
Proof.
  intros Hr Hr' Hx Hy.
  pose proof (near_pos _ _ _ Hr' Hy) as Hyp.
  destruct (div_Rnd x y) as (z & Hz & HR).
  { apply coeff_nonzero. lra. }
  exists z. split; [assumption|].
  apply (near_Rnd (r * r') (a / b) (value x / value y)).
  - apply Qmult_lt_0_compat; assumption.
  - apply near_div; assumption.
  - assumption.
Qed.

(** A difference of two inputs is rounded once. *)
Lemma sub_near (x y : Decimal) :
  value y < value x -> near rho (value x - value y) (value (x - y)%dec).
Proof.
  intros H. apply Rnd_near; [lra|apply sub_Rnd].
Qed.

Lemma fee_factor_near (fee_rate : Decimal) :
  value fee_rate < 1 -> near rho (1 - value fee_rate) (value (d1 - fee_rate)%dec).
Proof.
  intros H. apply Rnd_near; [lra|apply fee_factor_Rnd].
Qed.

End ApproxFacts.

(* ================================================================== *)
(** * src/utils/amm_pricing.py: accuracy against the docstring formulas *)

Module AmmAccuracy.

Import DecFacts Approx ApproxFacts AmmPricing AmmPricingFacts.
Local Open Scope Q_scope.

Ltac closed_Q := vm_compute; congruence.

(** The swap output with its operands known up to factors: the shared core
    of the accuracy statements. *)
Lemma output_near (r : Q) (x : Q) (amount_in reserve_in reserve_out fee_rate : Decimal) :
  1 <= r -> near r x (value amount_in) ->
  0 < value reserve_in -> 0 < value reserve_out -> value fee_rate < 1 ->
  exists out,
    calculate_constant_product_output amount_in reserve_in reserve_out fee_rate
    = Ok out /\
    near (r * rho * rho * 1 * rho * (r * rho * rho * rho) * rho)
         (output_exact x (value reserve_in) (value reserve_out)
                       (1 - value fee_rate))
         (value out).
Proof.
  intros Hr Hx Hin Hout Hfee.
  assert (Hr0 : 0 < r) by lra.
  pose proof (near_pos _ _ _ Hr0 Hx) as Ha.
  unfold calculate_constant_product_output.
  rewrite (proj2 (leb_int0_false amount_in) Ha).
  rewrite (proj2 (leb_int0_false reserve_in) Hin).
  rewrite (proj2 (leb_int0_false reserve_out) Hout). cbn [orb].
  pose proof (fee_factor_near fee_rate Hfee) as Hg.
  pose proof (mul_near r rho _ _ amount_in (d1 - fee_rate)%dec Hr0 eq_refl Hx Hg)
    as Hnet.
  set (net := (amount_in * (d1 - fee_rate))%dec) in *.
  assert (Hrn : 0 < r * rho * rho).
  { apply Qmult_lt_0_compat; [apply Qmult_lt_0_compat|]; [assumption|reflexivity|reflexivity]. }
  pose proof (mul_near _ 1 _ _ net reserve_out Hrn eq_refl Hnet
                       (near_refl _ Hout)) as Hnum.
  assert (Hin' : near (r * rho * rho) (value reserve_in) (value reserve_in)).
  { apply (near_weaken 1); [reflexivity| |apply near_refl; assumption].
    assert (1 <= rho) by closed_Q.
    assert (1 * 1 <= r * rho) by (apply Qmult_le_compat_nonneg; split; lra).
    assert (1 * 1 <= r * rho * rho) by (apply Qmult_le_compat_nonneg; split; lra).
    lra. }
  pose proof (add_near _ _ _ reserve_in net Hrn Hin' Hnet) as Hden.
  assert (Hrnum : 0 < r * rho * rho * 1 * rho).
  { apply Qmult_lt_0_compat; [apply Qmult_lt_0_compat|]; [exact Hrn|reflexivity|reflexivity]. }
  assert (Hrden : 0 < r * rho * rho * rho).
  { apply Qmult_lt_0_compat; [exact Hrn|reflexivity]. }
  destruct (div_near _ _ _ _ (net * reserve_out)%dec (reserve_in + net)%dec
              Hrnum Hrden Hnum Hden) as (out & Hout_eq & Hnear).
  exists out. split; [exact Hout_eq|].
  unfold output_exact. exact Hnear.
Qed.

Lemma input_near (amount_out reserve_in reserve_out fee_rate : Decimal) :
  0 < value amount_out -> value amount_out < value reserve_out ->
  0 < value reserve_in -> value fee_rate < 1 ->
  exists x,
    calculate_constant_product_input amount_out reserve_in reserve_out fee_rate
    = Ok x /\
    near (1 * 1 * rho * (rho * rho * rho) * rho)
         (input_exact (value amount_out) (value reserve_in) (value reserve_out)
                      (1 - value fee_rate))
         (value x).
Proof.
  intros Hy Hlt Hin Hfee.
  unfold calculate_constant_product_input.
  rewrite (proj2 (leb_int0_false amount_out) Hy).
  unfold geb. rewrite (proj2 (leb_false reserve_out amount_out) Hlt).
  rewrite (proj2 (leb_int0_false reserve_in) Hin).
  rewrite (proj2 (leb_int0_false reserve_out) ltac:(lra)). cbn [orb].
  pose proof (mul_near 1 1 _ _ reserve_in amount_out eq_refl eq_refl
                       (near_refl _ Hin) (near_refl _ Hy)) as Hnum.
  pose proof (mul_near rho rho _ _ (reserve_out - amount_out)%dec
                       (d1 - fee_rate)%dec eq_refl eq_refl
                       (sub_near _ _ Hlt) (fee_factor_near _ Hfee)) as Hden.
  destruct (div_near (1 * 1 * rho) (rho * rho * rho) _ _ _ _ eq_refl eq_refl
              Hnum Hden) as (x & Hx & Hnear).
  exists x. split; [exact Hx|]. exact Hnear.
Qed.

(** The docstring formulas are inverse to each other. *)
Lemma output_input_exact (y rin rout g : Q) :
  0 < y -> y < rout -> 0 < rin -> 0 < g ->
  output_exact (input_exact y rin rout g) rin rout g == y.
Proof.
  intros Hy Hlt Hin Hg. unfold output_exact, input_exact.
  field. repeat split; try lra.
  assert (H : 0 < rin * rout) by (apply Qmult_lt_0_compat; lra).
  intros E.
  assert (E2 : rin * (rout - y) + rin * y == rin * rout) by ring.
  rewrite E2 in E. lra.
Qed.

Lemma output_exact_pos (x rin rout g : Q) :
  0 < x -> 0 < rin -> 0 < rout -> 0 < g -> 0 < output_exact x rin rout g.
Proof.
  intros Hx Hin Hout Hg. unfold output_exact.
  assert (0 < x * g) by (apply Qmult_lt_0_compat; assumption).
  apply Qlt_shift_div_l; [lra|].
  rewrite Qmult_0_l. apply Qmult_lt_0_compat; assumption.
Qed.

Lemma input_exact_pos (y rin rout g : Q) :
  0 < y -> y < rout -> 0 < rin -> 0 < g -> 0 < input_exact y rin rout g.
Proof.
  intros Hy Hlt Hin Hg. unfold input_exact.
  apply Qlt_shift_div_l.
  - apply Qmult_lt_0_compat; lra.
  - rewrite Qmult_0_l. apply Qmult_lt_0_compat; assumption.
Qed.







End AmmAccuracy.

(* ================================================================== *)
(** * src/utils/amm_pricing.py: quotes, spot prices and sizing *)

Module AmmPoolFacts.

Import DecFacts Approx ApproxFacts AmmPricing AmmPricingFacts AmmAccuracy AmmPool.
Local Open Scope Q_scope.
Local Open Scope string_scope.

Lemma Rnd_nonneg (q : Q) (z : Decimal) : Rnd q z -> 0 <= q -> 0 <= value z.
Proof.
  intros HR Hq. destruct (Rnd_bounds q z HR Hq) as [Hlo _].
  assert (0 <= (1 - u) * q) by (apply Qmult_le_0_compat; [closed_Q|assumption]).
  lra.
Qed.

(** [get_swap_quote] once the token has picked [reserve_in] and
    [reserve_out]. *)
Lemma get_swap_quote_resolved (amount_in : Decimal) (reserves : PoolReserves)
    (token_in : string) (fee_rate reserve_in reserve_out : Decimal) :
  (token_in = token_a_symbol reserves /\
   reserve_in = reserve_token_a reserves /\
   reserve_out = reserve_token_b reserves) \/
  (token_in <> token_a_symbol reserves /\
   token_in = token_b_symbol reserves /\
   reserve_in = reserve_token_b reserves /\
   reserve_out = reserve_token_a reserves) ->
  get_swap_quote amount_in reserves token_in fee_rate
  = (amount_out <- calculate_constant_product_output
                     amount_in reserve_in reserve_out fee_rate ;;
     effective_price <- (if (amount_in >? int0)%dec
                         then (amount_out / amount_in)%dec else Ok d0) ;;
     spot_price <- (reserve_out / reserve_in)%dec ;;
     price_impact <- (if (spot_price >? int0)%dec
                      then q <- (Dec.abs (effective_price - spot_price)
                                 / spot_price)%dec ;;
                           Ok (q * d100)%dec
                      else Ok d0) ;;
     let fee_amount := (amount_in * fee_rate)%dec in
     Ok (mkSwapQuote amount_in amount_out effective_price price_impact
                     fee_amount)).
Proof.
  unfold get_swap_quote.
  intros [(Ht & Hi & Ho)|(Hn & Ht & Hi & Ho)]; subst reserve_in reserve_out.
  - rewrite Ht, String.eqb_refl. reflexivity.
  - destruct (String.eqb_spec token_in (token_a_symbol reserves)) as [E|_];
      [contradiction|].
    rewrite Ht, String.eqb_refl. reflexivity.
Qed.

(** A pool token picks one reserve as input and the other as output. *)
Lemma token_resolves (reserves : PoolReserves) (token_in : string) :
  token_in = token_a_symbol reserves \/ token_in = token_b_symbol reserves ->
  exists reserve_in reserve_out,
    ((token_in = token_a_symbol reserves /\
      reserve_in = reserve_token_a reserves /\
      reserve_out = reserve_token_b reserves) \/
     (token_in <> token_a_symbol reserves /\
      token_in = token_b_symbol reserves /\
      reserve_in = reserve_token_b reserves /\
      reserve_out = reserve_token_a reserves)).
Proof.
  intros Htok.
  destruct (String.eqb_spec token_in (token_a_symbol reserves)) as [Ea|Na].
  - exists (reserve_token_a reserves), (reserve_token_b reserves). left. auto.
  - exists (reserve_token_b reserves), (reserve_token_a reserves). right.
    destruct Htok; [contradiction|auto].
Qed.



(** X5: a token that is neither of the pool's symbols is rejected by both
    entry points with the same "Token ... not found in pool (a/b)"
    [ValueError], before any amount or reserve is looked at. *)
Theorem unknown_token_rejected
    (amount_in : Decimal) (reserves : PoolReserves) (token : string)
    (fee_rate : Decimal) :
  token <> token_a_symbol reserves -> token <> token_b_symbol reserves ->
  get_swap_quote amount_in reserves token fee_rate
  = Raise (UnknownToken token (token_a_symbol reserves)
                        (token_b_symbol reserves)) /\
  calculate_pool_spot_price reserves token
  = Raise (UnknownToken token (token_a_symbol reserves)
                        (token_b_symbol reserves)).
Proof.
  intros Ha Hb. unfold get_swap_quote, calculate_pool_spot_price.
  destruct (String.eqb_spec token (token_a_symbol reserves)); [contradiction|].
  destruct (String.eqb_spec token (token_b_symbol reserves)); [contradiction|].
  split; reflexivity.
Qed.

Lemma unknown_token_rejected_witness :
  get_swap_quote (mkDec 100 0)
    (mkPoolReserves (mkDec 1000 0) (mkDec 2000 0) "COSA" "PIRATE")
    "BTC" (mkDec 3 (-3))
  = Raise (ValueError "Token BTC not found in pool (COSA/PIRATE)").
Proof.
  apply (proj1 (unknown_token_rejected (mkDec 100 0)
                  (mkPoolReserves (mkDec 1000 0) (mkDec 2000 0) "COSA" "PIRATE")
                  "BTC" (mkDec 3 (-3))
                  ltac:(discriminate) ltac:(discriminate))).
Defined.



End AmmPoolFacts.

(* ================================================================== *)
(** * Rounding never crosses a number of at most [prec] digits *)

Module MonotoneFacts.

Import DecFacts AmmPricingFacts.
Local Open Scope Z_scope.

(** Floor and ceiling of the dropped digits bracket the rounded value. *)
Lemma round_half_even_bracket (a k : Z) :
  0 <= a -> 0 <= k ->
  a / 10 ^ k * 10 ^ k <= round_half_even a k * 10 ^ k /\
  round_half_even a k * 10 ^ k
  <= (if a mod 10 ^ k =? 0 then a else a / 10 ^ k * 10 ^ k + 10 ^ k).
Proof.
  intros Ha Hk. unfold round_half_even.
  pose proof (pow10_pos k Hk) as Hp. set (p := 10 ^ k) in *.
  assert (Hdm : a = p * (a / p) + a mod p) by (apply Z.div_mod; lia).
  assert (Hr : 0 <= a mod p < p) by (apply Z.mod_pos_bound; lia).
  set (q := a / p) in *. set (r := a mod p) in *.
  destruct (Z.eqb_spec r 0) as [E|E];
    destruct (Z.ltb_spec (2 * r) p); [|destruct (Z.ltb_spec p (2 * r));
      [|destruct (Z.even q)]| |destruct (Z.ltb_spec p (2 * r));
      [|destruct (Z.even q)]]; nia.
Qed.

(** A multiple [c1 * 10 ^ j] of few digits next to a long magnitude [a] is
    a multiple of the rounding grid. *)
Lemma grid_multiple (a k c1 j : Z) :
  1 <= k -> 0 <= j -> Z.abs c1 < 10 ^ prec ->
  10 ^ (prec - 1) * 10 ^ k <= c1 * 10 ^ j ->
  (c1 * 10 ^ j) mod 10 ^ k = 0.
Proof.
  intros Hk Hj Hc1 Hlo.
  assert (Hprec : 1 <= prec) by (unfold prec; lia).
  pose proof (pow10_pos j Hj) as HJ. pose proof (pow10_pos k ltac:(lia)) as HT.
  assert (HP : 10 ^ prec = 10 * 10 ^ (prec - 1)) by reflexivity.
  assert (HP1 : 0 < 10 ^ (prec - 1)) by reflexivity.
  assert (Hjk : k <= j).
  { assert (H : 10 ^ k < 10 ^ (j + 1)).
    { rewrite pow10_succ by lia. nia. }
    apply pow10_lt_inv in H; lia. }
  replace j with ((j - k) + k) by lia. rewrite pow10_add by lia.
  rewrite Z.mul_assoc. apply Z.mod_mul. lia.
Qed.

Lemma round_half_even_monotone (a k c1 j : Z) :
  0 < a -> 1 <= k -> 10 ^ (prec - 1) * 10 ^ k <= a ->
  0 <= j -> Z.abs c1 < 10 ^ prec ->
  (c1 * 10 ^ j <= a -> c1 * 10 ^ j <= round_half_even a k * 10 ^ k) /\
  (a <= c1 * 10 ^ j -> round_half_even a k * 10 ^ k <= c1 * 10 ^ j).
Proof.
  intros Ha Hk Hlo Hj Hc1.
  destruct (round_half_even_bracket a k ltac:(lia) ltac:(lia)) as [HF HC].
  pose proof (pow10_pos k ltac:(lia)) as HT.
  assert (HP1 : 0 < 10 ^ (prec - 1)) by reflexivity.
  set (T := 10 ^ k) in *. set (m := round_half_even a k) in *.
  set (R := c1 * 10 ^ j) in *.
  assert (Hdm : a = T * (a / T) + a mod T) by (apply Z.div_mod; lia).
  assert (Hr : 0 <= a mod T < T) by (apply Z.mod_pos_bound; lia).
  assert (Hq : 10 ^ (prec - 1) <= a / T) by (apply Z.div_le_lower_bound; lia).
  split; intros HR.
  - destruct (Z_le_gt_dec R (a / T * T)) as [|Hgt]; [lia|exfalso].
    assert (Hgrid : R mod T = 0).
    { apply (grid_multiple a); try assumption. nia. }
    apply Z.mod_divide in Hgrid; [|lia]. destruct Hgrid as [i Hi].
    assert (i <= a / T) by (apply Z.div_le_lower_bound; lia).
    nia.
  - destruct (Z.eqb_spec (a mod T) 0) as [E|E]; [lia|].
    destruct (Z_le_gt_dec (a / T * T + T) R) as [|Hlt]; [lia|exfalso].
    assert (Hgrid : R mod T = 0).
    { apply (grid_multiple a); try assumption. nia. }
    apply Z.mod_divide in Hgrid; [|lia]. destruct Hgrid as [i Hi].
    assert (a / T < i) by nia. nia.
Qed.

Local Open Scope Q_scope.

(** [_fix] of a value that is at least (at most) a number of at most
    [prec] digits stays at least (at most) that number. *)
Lemma fix_monotone (d : Decimal) (c1 e1 : Z) :
  (Z.abs c1 < 10 ^ prec)%Z ->
  (value (mkDec c1 e1) <= value d -> value (mkDec c1 e1) <= value (fix_ d)) /\
  (value d <= value (mkDec c1 e1) -> value (fix_ d) <= value (mkDec c1 e1)).
Proof.
  intros Hc1.
  destruct (fix_shape d) as [[_ E]|(Hn & K & HK & He & _ & Hsh)];
    [rewrite E; split; auto|].
  destruct (ndigits_spec (coeff d)) as (_ & Hn2 & Hn3).
  assert (Hprec : (1 <= prec)%Z) by (unfold prec; lia).
  assert (Hc : coeff d <> 0%Z).
  { intros E. rewrite E in Hn. vm_compute in Hn. discriminate. }
  specialize (Hn3 Hc).
  set (c := coeff d) in *. set (k := (ndigits c - prec)%Z) in *.
  set (m := round_half_even (Z.abs c) k) in *.
  assert (Hk : (1 <= k)%Z) by (unfold k; lia).
  pose proof (pow10_pos k ltac:(lia)) as HT.
  assert (Hlo : (10 ^ (prec - 1) * 10 ^ k <= Z.abs c)%Z).
  { rewrite <- pow10_add by lia. replace (prec - 1 + k)%Z with (ndigits c - 1)%Z
      by (unfold k; lia). exact Hn3. }
  assert (Hv : value (fix_ d)
               == inject_Z (Z.sgn c * (m * 10 ^ k)) * inject_Z 10 ^ expo d).
  { pose proof (value_shift (coeff (fix_ d)) (expo d) K HK) as H.
    rewrite <- He, Hsh in H. destruct (fix_ d); exact (Qeq_sym _ _ H). }
  destruct (round_half_even_bracket (Z.abs c) k ltac:(lia) ltac:(lia)) as [HF _].
  assert (HmT : (10 ^ (prec - 1) * 10 ^ k <= m * 10 ^ k)%Z).
  { fold m in HF.
    assert (10 ^ (prec - 1) <= Z.abs c / 10 ^ k)%Z
      by (apply Z.div_le_lower_bound; lia).
    nia. }
  assert (HP : (10 ^ prec = 10 * 10 ^ (prec - 1))%Z) by reflexivity.
  assert (HP1 : (0 < 10 ^ (prec - 1))%Z) by reflexivity.
  rewrite Hv.
  destruct (Z_le_gt_dec (expo d) e1) as [Hee|Hee].
  - (* the bound sits on a coarser exponent: compare at [expo d] *)
    rewrite (value_align (mkDec c1 e1) (expo d)) by (cbn [expo]; lia).
    cbn [coeff expo]. unfold value. fold c.
    set (j := (e1 - expo d)%Z) in *.
    rewrite !scaled_le by apply p10_pos.
    destruct (Z_lt_le_dec 0 c) as [Hpos|Hneg].
    + destruct (round_half_even_monotone (Z.abs c) k c1 j
                  ltac:(lia) Hk Hlo ltac:(lia) Hc1) as [H1 H2].
      fold m in H1, H2. rewrite Z.abs_eq in H1, H2 by lia.
      replace (Z.sgn c) with 1%Z by lia. rewrite Z.mul_1_l. split; assumption.
    + destruct (round_half_even_monotone (Z.abs c) k (- c1) j
                  ltac:(lia) Hk Hlo ltac:(lia) ltac:(lia)) as [H1 H2].
      fold m in H1, H2. rewrite Z.abs_neq in H1, H2 by lia.
      replace (Z.sgn c) with (-1)%Z by lia. split; intros H; lia.
  - (* the bound has the finer exponent: it is too short to lie between *)
    pose proof (value_align (mkDec (Z.sgn c * (m * 10 ^ k)) (expo d)) e1
                  ltac:(cbn [expo]; lia)) as A1.
    unfold value at 1 in A1. cbn [coeff expo] in A1. rewrite A1.
    rewrite (value_align d e1) by lia. fold c.
    unfold value. cbn [coeff expo].
    rewrite !scaled_le by apply p10_pos.
    pose proof (pow10_pos (expo d - e1) ltac:(lia)) as HJ.
    set (J := (10 ^ (expo d - e1))%Z) in *.
    assert (HTk : (10 <= 10 ^ k)%Z) by (apply (pow10_le 1 k); lia).
    assert (Hbig : (10 ^ prec <= m * 10 ^ k)%Z) by nia.
    assert (Hbig2 : (10 ^ prec <= Z.abs c)%Z) by nia.
    set (MT := (m * 10 ^ k)%Z) in *. set (P := (10 ^ prec)%Z) in *.
    assert (HMJ : (MT <= MT * J)%Z) by nia.
    assert (HCJ : (Z.abs c <= Z.abs c * J)%Z) by nia.
    destruct (Z_lt_le_dec 0 c) as [Hpos|Hneg].
    + replace (Z.sgn c) with 1%Z by lia. rewrite Z.abs_eq in HCJ, Hbig2 by lia.
      split; intros H; lia.
    + replace (Z.sgn c) with (-1)%Z by lia. rewrite Z.abs_neq in HCJ, Hbig2 by lia.
      split; intros H; lia.
Qed.

Lemma fix_le_bound (d : Decimal) (r : Q) :
  representable r -> value d <= r -> value (fix_ d) <= r.
Proof.
  intros (c1 & e1 & Hc1 & Hr) H. rewrite Hr in *.
  apply (proj2 (fix_monotone d c1 e1 Hc1) H).
Qed.

Lemma fix_ge_bound (d : Decimal) (r : Q) :
  representable r -> r <= value d -> r <= value (fix_ d).
Proof.
  intros (c1 & e1 & Hc1 & Hr) H. rewrite Hr in *.
  apply (proj1 (fix_monotone d c1 e1 Hc1) H).
Qed.

Lemma mul_le_bound (x y : Decimal) (r : Q) :
  representable r -> value x * value y <= r -> value (x * y)%dec <= r.
Proof.
  intros Hr H. unfold mul. apply fix_le_bound; [assumption|].
  rewrite mul_exact. exact H.
Qed.

Lemma mul_ge_bound (x y : Decimal) (r : Q) :
  representable r -> r <= value x * value y -> r <= value (x * y)%dec.
Proof.
  intros Hr H. unfold mul. apply fix_ge_bound; [assumption|].
  rewrite mul_exact. exact H.
Qed.

Lemma sub_le_bound (x y : Decimal) (r : Q) :
  representable r -> value x - value y <= r -> value (x - y)%dec <= r.
Proof.
  intros Hr H. unfold sub, add. apply fix_le_bound; [assumption|].
  rewrite add_exact, value_neg. lra.
Qed.

Lemma sub_ge_bound (x y : Decimal) (r : Q) :
  representable r -> r <= value x - value y -> r <= value (x - y)%dec.
Proof.
  intros Hr H. unfold sub, add. apply fix_ge_bound; [assumption|].
  rewrite add_exact, value_neg. lra.
Qed.

Lemma representable_value (x : Decimal) :
  (Z.abs (coeff x) < 10 ^ prec)%Z -> representable (value x).
Proof.
  intros H. exists (coeff x), (expo x). split; [assumption|].
  destruct x; reflexivity.
Qed.

Lemma representable_0 : representable 0.
Proof. apply (representable_Z 0). reflexivity. Qed.

Lemma representable_1 : representable 1.
Proof. apply (representable_Z 1). reflexivity. Qed.

(** A factor [1 - t] with [0 <= t <= 1] stays in [[0, 1]] when rounded. *)
Lemma complement_bounds (t : Decimal) :
  0 <= value t -> value t <= 1 ->
  0 <= value (d1 - t)%dec /\ value (d1 - t)%dec <= 1.
Proof.
  intros H0 H1. split.
  - apply sub_ge_bound; [apply representable_0|]. rewrite value_d1. lra.
  - apply sub_le_bound; [apply representable_1|]. rewrite value_d1. lra.
Qed.

End MonotoneFacts.

(* ================================================================== *)
(** * Slippage floor, trade sizing and notional checks *)

Module SizingFacts.

Import DecFacts Approx ApproxFacts AmmPricing AmmPricingFacts AmmAccuracy.
Import MonotoneFacts AmmPool Notional.
Local Open Scope Q_scope.
Local Open Scope string_scope.

Lemma Rnd_exact_eq (q q' : Q) (z : Decimal) :
  Rnd q z -> q == q' -> representable q' -> value z == q'.
Proof.
  intros HR E Hr. apply (Rnd_exact q' z); [|assumption].
  apply (Rnd_proper q); assumption.
Qed.

(** A non-negative amount of at most [prec] digits times a rounded factor
    of [[0, 1]] stays between 0 and the amount. *)
Lemma scaled_down (amount factor : Decimal) :
  (Z.abs (coeff amount) < 10 ^ prec)%Z -> 0 <= value amount ->
  0 <= value factor -> value factor <= 1 ->
  0 <= value (amount * factor)%dec /\ value (amount * factor)%dec <= value amount.
Proof.
  intros Hd Ha H0 H1. split.
  - apply mul_nonneg; assumption.
  - apply mul_le_bound; [apply representable_value; assumption|].
    assert (H : 0 <= value amount * (1 - value factor))
      by (apply Qmult_le_0_compat; lra).
    assert (E : value amount * (1 - value factor)
                == value amount - value amount * value factor) by ring.
    lra.
Qed.







End SizingFacts.

(* ================================================================== *)
(** * src/nonkyc_client/pricing.py: notional helpers and step rounding *)

Module PricingFacts.

Import DecFacts Approx ApproxFacts AmmPricingFacts AmmAccuracy MonotoneFacts.
Import Notional Pricing.
Local Open Scope Q_scope.






(** [to_integral_value(rounding=ROUND_UP)] gives the integer next to its
    argument on the side away from zero. *)
Lemma to_integral_round_up_spec (x : Decimal) :
  exists n : Z,
    value (to_integral_value_round_up x) == inject_Z n /\
    (0 <= value x -> value x <= inject_Z n /\ inject_Z n < value x + 1) /\
    (value x <= 0 -> value x - 1 < inject_Z n /\ inject_Z n <= value x).
Proof.
  unfold to_integral_value_round_up.
  destruct (Z.leb_spec 0 (expo x)) as [He|He].
  - exists (coeff x * 10 ^ expo x)%Z.
    assert (E : value x == inject_Z (coeff x * 10 ^ expo x)).
    { unfold value. rewrite inject_Z_mult, (p10_Z _ He). reflexivity. }
    split; [exact E|]. rewrite E. split; intros _; lra.
  - set (k := (- expo x)%Z). assert (Hk : (0 <= k)%Z) by (unfold k; lia).
    pose proof (pow10_pos k Hk) as HT.
    destruct (round_up_spec (Z.abs (coeff x)) k ltac:(lia) Hk) as [Hlo Hhi].
    set (ru := round_up (Z.abs (coeff x)) k) in *.
    exists (Z.sgn (coeff x) * ru)%Z.
    assert (Hval : value (mkDec (Z.sgn (coeff x) * ru) 0)
                   == inject_Z (Z.sgn (coeff x) * ru)).
    { unfold value; cbn [coeff expo]. change (inject_Z 10 ^ 0) with 1. ring. }
    split; [exact Hval|].
    (* [value x * 10 ^ k] is the coefficient *)
    assert (HiT : 0 < inject_Z (10 ^ k)) by (apply inject_Z_pos; assumption).
    assert (Ex : value x * inject_Z (10 ^ k) == inject_Z (coeff x)).
    { unfold value. rewrite <- (p10_Z k Hk), <- Qmult_assoc, <- p10_plus.
      replace (expo x + k)%Z with 0%Z by (unfold k; lia).
      change (inject_Z 10 ^ 0) with 1. ring. }
    set (T := inject_Z (10 ^ k)) in *.
    assert (Hsign : (0 < value x <-> (0 < coeff x)%Z) /\
                    (value x < 0 <-> (coeff x < 0)%Z)).
    { destruct (value_sign x) as (H1 & _ & H3). split; assumption. }
    destruct Hsign as [Hsp Hsn].
    rewrite Zle_Qle in Hlo. rewrite Zlt_Qlt in Hhi.
    rewrite inject_Z_mult in Hlo, Hhi. rewrite inject_Z_plus in Hhi. fold T in Hlo, Hhi.
    destruct (Z.lt_trichotomy (coeff x) 0) as [Hc|[Hc|Hc]].
    + (* negative *)
      assert (Hx : value x < 0) by (apply Hsn; assumption).
      replace (Z.sgn (coeff x)) with (-1)%Z by lia.
      replace (-1 * ru)%Z with (- ru)%Z by lia. rewrite inject_Z_opp.
      rewrite Z.abs_neq in Hlo, Hhi by lia. rewrite inject_Z_opp, <- Ex in Hlo, Hhi.
      split; [intros; lra|]. intros _. split.
      * apply (Qmult_lt_r _ _ T HiT). lra.
      * apply (Qmult_le_r _ _ T HiT). lra.
    + assert (Hx : value x == 0) by (apply value_sign; assumption).
      rewrite Hc in *. replace (Z.sgn 0 * ru)%Z with 0%Z by lia.
      rewrite Hx. change (inject_Z 0) with 0. split; intros _; lra.
    + assert (Hx : 0 < value x) by (apply Hsp; assumption).
      replace (Z.sgn (coeff x)) with 1%Z by lia. rewrite Z.mul_1_l.
      rewrite Z.abs_eq in Hlo, Hhi by lia. rewrite <- Ex in Hlo, Hhi.
      split; [|intros; lra]. intros _. split.
      * apply (Qmult_le_r _ _ T HiT). lra.
      * apply (Qmult_lt_r _ _ T HiT). lra.
Qed.





End PricingFacts.

(* ================================================================== *)
(** * run_cosa_arb.py: rates, the simulated amount, the loop body *)

Module CycleFacts.

Import DecFacts Approx ApproxFacts AmmPricingFacts AmmAccuracy CosaArb.
Local Open Scope Q_scope.
Local Open Scope string_scope.





Lemma mul_zero_l (x y : Decimal) : value x == 0 -> value (x * y)%dec == 0.
Proof.
  intros H. apply (Rnd_zero _ _ (mul_Rnd x y)). rewrite H. ring.
Qed.




(** X17: a cycle in which one of the three price fetches failed is
    abandoned: nothing is evaluated, the operator is not prompted and no
    order is placed.  The same happens when two of the configured pairs
    carry the same name, the dictionary then holding fewer than three
    prices. *)
Theorem cycle_abandoned (get_price : string -> option Decimal)
    (place_order : OrderRequest -> result unit)
    (config : Config) (stdin : list string) :
  get_price (pair_ab config) = None \/ get_price (pair_bc config) = None \/
  get_price (pair_ac config) = None \/
  pair_ab config = pair_bc config \/ pair_ab config = pair_ac config \/
  pair_bc config = pair_ac config ->
  run_cycle get_price place_order config stdin = Ok (Abandoned, stdin).
Proof.
  intros H. unfold run_cycle. cbn [fold_left].
  set (ab := pair_ab config) in *. set (bc := pair_bc config) in *.
  set (ac := pair_ac config) in *.
  match goal with
  | |- context [Nat.eqb (List.length ?p) 3] =>
      assert (Hlen : List.length p <> 3%nat)
  end.
  { destruct (get_price ab) as [p1|], (get_price bc) as [p2|],
      (get_price ac) as [p3|]; cbn [dict_set];
      repeat match goal with
             | |- context [String.eqb ?x ?y] =>
                 destruct (String.eqb_spec x y); cbn [dict_set]
             end;
      cbn [List.length]; try discriminate;
      destruct H as [H|[H|[H|[H|[H|H]]]]]; try discriminate; congruence. }
  apply Nat.eqb_neq in Hlen. rewrite Hlen. reflexivity.
Qed.

Lemma cycle_abandoned_witness :
  run_cycle (fun _ => None) accept_order scenario_config ["yes"]
  = Ok (Abandoned, ["yes"]).
Proof.
  apply (cycle_abandoned (fun _ => None) accept_order scenario_config ["yes"]).
  left. reflexivity.
Defined.





End CycleFacts.

(* ================================================================== *)
(** * nonkyc_bot/src/engine/order_manager.py: the open-order book *)

Module OrderManagerFacts.

Import OrderManager.
Local Open Scope string_scope.
Local Open Scope list_scope.

Section WithFloat.

Variable float : Type.

Lemma get_open_order_none (s : list (Order float)) (id : string) :
  get_open_order s id = None <-> ~ In id (List.map order_id s).
Proof.
  induction s as [|o s IH]; cbn [get_open_order List.map In].
  - tauto.
  - destruct (String.eqb_spec (order_id o) id) as [E|N].
    + split; [discriminate|]. intros H. exfalso. apply H. left. exact E.
    + rewrite IH. tauto.
Qed.

Lemma get_open_order_some (s : list (Order float)) (id : string) (o : Order float) :
  get_open_order s id = Some o -> In o s /\ order_id o = id.
Proof.
  induction s as [|o' s IH]; cbn [get_open_order In]; [discriminate|].
  destruct (String.eqb_spec (order_id o') id) as [E|N].
  - intros H. injection H as <-. auto.
  - intros H. destruct (IH H). auto.
Qed.

Lemma get_open_order_app (s : list (Order float)) (o : Order float) (id : string) :
  get_open_order (s ++ [o]) id
  = match get_open_order s id with
    | Some found => Some found
    | None => if String.eqb (order_id o) id then Some o else None
    end.
Proof.
  induction s as [|o' s IH]; cbn [get_open_order app]; [reflexivity|].
  destruct (String.eqb (order_id o') id); [reflexivity|exact IH].
Qed.

(** X20: [submit] keeps the order ids unique.  An order whose id is
    already tracked is refused with the "already tracked" [ValueError];
    otherwise it is appended: the book grows by one, the ids stay pairwise
    distinct if they were, the new order is found under its id, and every
    other id resolves as before. *)
Theorem submit_tracks (s : list (Order float)) (o : Order float) :
  (In (order_id o) (List.map order_id s) ->
   submit s o = Raise (AlreadyTracked (order_id o))) /\
  (~ In (order_id o) (List.map order_id s) ->
   submit s o = Ok (o, s ++ [o]) /\
   List.length (s ++ [o]) = S (List.length s) /\
   (NoDup (List.map order_id s) -> NoDup (List.map order_id (s ++ [o]))) /\
   get_open_order (s ++ [o]) (order_id o) = Some o /\
   forall id, id <> order_id o ->
     get_open_order (s ++ [o]) id = get_open_order s id).
Proof.
  unfold submit. split.
  - intros Hin. destruct (get_open_order s (order_id o)) eqn:E; [reflexivity|].
    apply get_open_order_none in E. contradiction.
  - intros Hnot. pose proof (proj2 (get_open_order_none s (order_id o)) Hnot) as E.
    rewrite E. split; [reflexivity|]. split.
    { rewrite length_app. cbn. lia. }
    split.
    { intros Hnd. rewrite map_app. cbn [List.map].
      apply NoDup_app; [exact Hnd|constructor; [intros []|constructor]|].
      intros x Hx [<-|[]]. contradiction. }
    split.
    { rewrite get_open_order_app, E, String.eqb_refl. reflexivity. }
    intros id Hid. rewrite get_open_order_app.
    destruct (get_open_order s id); [reflexivity|].
    destruct (String.eqb_spec (order_id o) id); [congruence|reflexivity].
Qed.

Lemma cancel_spec (s : list (Order float)) (id : string) :
  (In id (List.map order_id s) -> fst (cancel s id) = true /\
                    S (List.length (snd (cancel s id))) = List.length s) /\
  (~ In id (List.map order_id s) -> cancel s id = (false, s)) /\
  (forall id', In id' (List.map order_id (snd (cancel s id))) -> In id' (List.map order_id s)) /\
  (NoDup (List.map order_id s) -> NoDup (List.map order_id (snd (cancel s id))) /\
                    ~ In id (List.map order_id (snd (cancel s id)))) /\
  (forall id', id' <> id ->
     get_open_order (snd (cancel s id)) id' = get_open_order s id').
Proof.
  induction s as [|o s IH]; cbn [cancel List.map In].
  - cbn; repeat split; try tauto; try constructor.
  - destruct IH as (IH1 & IH2 & IH3 & IH4 & IH5).
    destruct (String.eqb_spec (order_id o) id) as [E|N]; cbn [fst snd].
    + split; [auto|]. split; [intros H; exfalso; apply H; auto|].
      split; [intros id' H; right; exact H|]. split.
      * intros Hnd. apply NoDup_cons_iff in Hnd; destruct Hnd as [Hni Hnd']. split; [assumption|].
        rewrite <- E. exact Hni.
      * intros id' Hne. cbn [get_open_order].
        destruct (String.eqb_spec (order_id o) id'); [congruence|reflexivity].
    + destruct (cancel s id) as [found s'] eqn:Ec. cbn [fst snd] in *.
      cbn [List.map In List.length get_open_order].
      split.
      { intros [H|H]; [contradiction|]. destruct (IH1 H) as [-> Hl]. split; [reflexivity|lia]. }
      split.
      { intros H. assert (Hs : ~ In id (List.map order_id s)) by tauto.
        specialize (IH2 Hs). injection IH2 as -> ->. reflexivity. }
      split.
      { intros id' [H|H]; [left; exact H|right; apply IH3; exact H]. }
      split.
      { intros Hnd. apply NoDup_cons_iff in Hnd; destruct Hnd as [Hni Hnd'].
        destruct (IH4 Hnd') as [H1 H2]. split.
        - constructor; [|exact H1]. intros H. apply Hni. apply IH3. exact H.
        - intros [H|H]; [contradiction|]. apply H2. exact H. }
      intros id' Hne. destruct (String.eqb (order_id o) id'); [reflexivity|].
      apply IH5. exact Hne.
Qed.

(** X21: [cancel] reports whether the id was tracked.  An unknown id
    leaves the book as it is; a known one removes exactly one order, and
    in a book with distinct ids the id is then no longer found, the ids
    stay distinct, and every other id resolves as before. *)
Theorem cancel_removes (s : list (Order float)) (id : string) :
  (~ In id (List.map order_id s) -> cancel s id = (false, s)) /\
  (In id (List.map order_id s) ->
   fst (cancel s id) = true /\
   S (List.length (snd (cancel s id))) = List.length s /\
   (NoDup (List.map order_id s) ->
    NoDup (List.map order_id (snd (cancel s id))) /\
    get_open_order (snd (cancel s id)) id = None) /\
   forall id', id' <> id ->
     get_open_order (snd (cancel s id)) id' = get_open_order s id').
Proof.
  destruct (cancel_spec s id) as (H1 & H2 & _ & H4 & H5).
  split; [exact H2|]. intros Hin. destruct (H1 Hin) as [Hf Hl].
  split; [exact Hf|]. split; [exact Hl|]. split; [|exact H5].
  intros Hnd. destruct (H4 Hnd) as [Hnd' Hni]. split; [exact Hnd'|].
  apply get_open_order_none. exact Hni.
Qed.

(** X22: submitting an untracked order and cancelling it again gives the
    book back as it was. *)
Theorem cancel_after_submit (s : list (Order float)) (o : Order float) :
  ~ In (order_id o) (List.map order_id s) ->
  exists s', submit s o = Ok (o, s') /\ cancel s' (order_id o) = (true, s).
Proof.
  intros Hnot. exists (s ++ [o]). split.
  - apply (proj2 (get_open_order_none s (order_id o))) in Hnot.
    unfold submit. rewrite Hnot. reflexivity.
  - induction s as [|o' s IH]; cbn [cancel app].
    + rewrite String.eqb_refl. reflexivity.
    + cbn [List.map In] in Hnot.
      destruct (String.eqb_spec (order_id o') (order_id o)) as [E|N]; [tauto|].
      rewrite IH by tauto. reflexivity.
Qed.

Lemma replace_spec (s : list (Order float)) (id : string) (new_order : Order float) :
  (~ In id (List.map order_id s) -> replace s id new_order = (false, s)) /\
  (In id (List.map order_id s) -> fst (replace s id new_order) = true) /\
  List.length (snd (replace s id new_order)) = List.length s /\
  (order_id new_order = id ->
   List.map order_id (snd (replace s id new_order)) = List.map order_id s /\
   (In id (List.map order_id s) ->
    get_open_order (snd (replace s id new_order)) id = Some new_order)) /\
  (forall id', id' <> id -> id' <> order_id new_order ->
     get_open_order (snd (replace s id new_order)) id' = get_open_order s id').
Proof.
  induction s as [|o s IH]; cbn [replace List.map In].
  - cbn; repeat split; try tauto.
  - destruct IH as (IH1 & IH2 & IH3 & IH4 & IH5).
    destruct (String.eqb_spec (order_id o) id) as [E|N]; cbn [fst snd].
    + split; [intros H; exfalso; apply H; auto|]. split; [auto|].
      split; [reflexivity|]. split.
      * intros Hid. cbn [List.map get_open_order]. rewrite Hid, E.
        split; [reflexivity|]. rewrite String.eqb_refl. reflexivity.
      * intros id' H1 H2. cbn [get_open_order].
        destruct (String.eqb_spec (order_id new_order) id'); [congruence|].
        destruct (String.eqb_spec (order_id o) id'); [congruence|reflexivity].
    + destruct (replace s id new_order) as [found s'] eqn:Er. cbn [fst snd] in *.
      cbn [List.map In List.length get_open_order].
      split.
      { intros H. assert (Hs : ~ In id (List.map order_id s)) by tauto.
        specialize (IH1 Hs). injection IH1 as -> ->. reflexivity. }
      split; [intros [H|H]; [contradiction|auto]|].
      split; [lia|]. split.
      * intros Hid. destruct (IH4 Hid) as [Hids Hget]. rewrite Hids.
        split; [reflexivity|]. intros [H|H]; [contradiction|].
        destruct (String.eqb_spec (order_id o) id); [contradiction|]. auto.
      * intros id' H1 H2. destruct (String.eqb (order_id o) id'); [reflexivity|].
        apply IH5; assumption.
Qed.

(** X23: [replace] puts the new order in the place of the first order
    with the id and reports whether there was one; the book keeps its
    length, an unknown id leaves it untouched, and when the new order
    carries the replaced id the ids (hence their uniqueness) are unchanged
    and the id now resolves to the new order. *)
Theorem replace_in_place (s : list (Order float)) (id : string) (new_order : Order float) :
  (~ In id (List.map order_id s) -> replace s id new_order = (false, s)) /\
  (In id (List.map order_id s) ->
   fst (replace s id new_order) = true /\
   List.length (snd (replace s id new_order)) = List.length s /\
   (order_id new_order = id ->
    List.map order_id (snd (replace s id new_order)) = List.map order_id s /\
    get_open_order (snd (replace s id new_order)) id = Some new_order)).
Proof.
  destruct (replace_spec s id new_order) as (H1 & H2 & H3 & H4 & _).
  split; [exact H1|]. intros Hin. split; [auto|]. split; [exact H3|].
  intros Hid. destruct (H4 Hid) as [Ha Hb]. auto.
Qed.

End WithFloat.

Lemma submit_tracks_witness :
  submit [mkOrder "a1" "BTC/USDT" "buy" tt tt] (mkOrder "a1" "ETH/USDT" "sell" tt tt)
  = Raise (AlreadyTracked "a1") /\
  submit [mkOrder "a1" "BTC/USDT" "buy" tt tt] (mkOrder "b2" "ETH/USDT" "sell" tt tt)
  = Ok (mkOrder "b2" "ETH/USDT" "sell" tt tt,
        [mkOrder "a1" "BTC/USDT" "buy" tt tt; mkOrder "b2" "ETH/USDT" "sell" tt tt]).
Proof.
  split.
  - apply (proj1 (submit_tracks unit [mkOrder "a1" "BTC/USDT" "buy" tt tt]
                    (mkOrder "a1" "ETH/USDT" "sell" tt tt))).
    left. reflexivity.
  - apply (proj2 (submit_tracks unit [mkOrder "a1" "BTC/USDT" "buy" tt tt]
                    (mkOrder "b2" "ETH/USDT" "sell" tt tt))).
    intros [H|[]]. discriminate.
Defined.

Lemma cancel_removes_witness :
  fst (cancel [mkOrder "a1" "BTC/USDT" "buy" tt tt;
               mkOrder "b2" "ETH/USDT" "sell" tt tt] "a1") = true /\
  cancel [mkOrder "a1" "BTC/USDT" "buy" tt tt] "zz"
  = (false, [mkOrder "a1" "BTC/USDT" "buy" tt tt]).
Proof.
  split.
  - apply (proj2 (cancel_removes unit
                    [mkOrder "a1" "BTC/USDT" "buy" tt tt;
                     mkOrder "b2" "ETH/USDT" "sell" tt tt] "a1")).
    left. reflexivity.
  - apply (proj1 (cancel_removes unit [mkOrder "a1" "BTC/USDT" "buy" tt tt] "zz")).
    intros [H|[]]. discriminate.
Defined.

Lemma cancel_after_submit_witness :
  exists s',
    submit [mkOrder "a1" "BTC/USDT" "buy" tt tt]
           (mkOrder "b2" "ETH/USDT" "sell" tt tt)
    = Ok (mkOrder "b2" "ETH/USDT" "sell" tt tt, s') /\
    cancel s' "b2" = (true, [mkOrder "a1" "BTC/USDT" "buy" tt tt]).
Proof.
  apply (cancel_after_submit unit [mkOrder "a1" "BTC/USDT" "buy" tt tt]
           (mkOrder "b2" "ETH/USDT" "sell" tt tt)).
  intros [H|[]]. discriminate.
Defined.

Lemma replace_in_place_witness :
  fst (replace [mkOrder "a1" "BTC/USDT" "buy" tt tt] "a1"
               (mkOrder "a1" "BTC/USDT" "sell" tt tt)) = true /\
  replace [mkOrder "a1" "BTC/USDT" "buy" tt tt] "zz"
          (mkOrder "zz" "BTC/USDT" "sell" tt tt)
  = (false, [mkOrder "a1" "BTC/USDT" "buy" tt tt]).
Proof.
  split.
  - apply (proj2 (replace_in_place unit [mkOrder "a1" "BTC/USDT" "buy" tt tt]
                    "a1" (mkOrder "a1" "BTC/USDT" "sell" tt tt))).
    left. reflexivity.
  - apply (proj1 (replace_in_place unit [mkOrder "a1" "BTC/USDT" "buy" tt tt]
                    "zz" (mkOrder "zz" "BTC/USDT" "sell" tt tt))).
    intros [H|[]]. discriminate.
Defined.

End OrderManagerFacts.

(* ================================================================== *)
(** * src/utils/amm_pricing.py: which error comes first, and a full fee *)

Module AmmEdgeFacts.

Import DecFacts Approx ApproxFacts AmmPricing AmmPricingFacts AmmAccuracy.
Local Open Scope Q_scope.

(** X24: the checks of [calculate_constant_product_input] in their order:
    with a positive [amount_out], a non-positive [reserve_out] is reported
    as "cannot swap more than pool reserve" (ExceedsReserve), never as
    invalid reserves; the "pool reserves must be positive" error
    (InvalidReserves) is raised exactly for [0 < amount_out < reserve_out]
    with [reserve_in <= 0]. *)
Theorem input_error_order
    (amount_out reserve_in reserve_out fee_rate : Decimal) :
  0 < value amount_out ->
  (value reserve_out <= 0 ->
   calculate_constant_product_input amount_out reserve_in reserve_out fee_rate
   = Raise ExceedsReserve) /\
  (calculate_constant_product_input amount_out reserve_in reserve_out fee_rate
   = Raise InvalidReserves
   <-> value amount_out < value reserve_out /\ value reserve_in <= 0).
Proof.
  intros Hy. unfold calculate_constant_product_input.
  rewrite (proj2 (leb_int0_false amount_out) Hy). unfold geb. split.
  - intros Hout. rewrite (proj2 (leb_spec reserve_out amount_out)) by lra.
    reflexivity.
  - destruct (reserve_out <=? amount_out)%dec eqn:Hge.
    + apply leb_spec in Hge. split.
      * intros H. discriminate.
      * intros [H _]. lra.
    + apply leb_false in Hge.
      rewrite (proj2 (leb_int0_false reserve_out)) by lra.
      rewrite orb_false_r.
      destruct (reserve_in <=? int0)%dec eqn:Hin.
      * apply leb_int0 in Hin. split; [intros _; split; assumption|reflexivity].
      * apply leb_int0_false in Hin. split; [|intros [_ H]; lra].
        intros H. exfalso.
        destruct (Z.eq_dec
                    (coeff ((reserve_out - amount_out) * (d1 - fee_rate))%dec) 0)
          as [Ez|Nz].
        -- rewrite (div_zero_divisor _ _ Ez) in H.
           destruct (_ =? 0)%Z; discriminate.
        -- destruct (div_Rnd (reserve_in * amount_out)%dec _ Nz) as (z & Hz & _).
           rewrite Hz in H. discriminate.
Qed.

Lemma input_error_order_witness :
  calculate_constant_product_input (mkDec 5 0) (mkDec 1000 0) (mkDec (-3) 0)
                                   (mkDec 3 (-3))
  = Raise ExceedsReserve.
Proof.
  apply (proj1 (input_error_order (mkDec 5 0) (mkDec 1000 0) (mkDec (-3) 0)
                  (mkDec 3 (-3)) eq_refl)).
  vm_compute. congruence.
Defined.



End AmmEdgeFacts.
